(** * A shallow embedding of the Modbus server (server.go)

    The file has two halves.  The first embeds the code: the byte-order and
    bit-packing helpers the dispatcher calls, the request dispatcher and
    worker loop of [handleTransport], and the connection bookkeeping of the
    server core ([Start], [Stop], [acceptTCPClients], [handleTCPClient]).
    The second half states and proves the properties.

    Conventions.  A [uint8] is a [Byte.byte]; a [uint16], [uint32], [uint]
    or [int] is a [Z] whose wrap-around is written out where the code
    converts; a Go slice is a [list]; a connection ([net.Conn]) is the
    natural number that identifies it.  Indexing or slicing a slice out of
    range panics in Go: code that indexes lives in the [go] monad, whose
    second constructor is that panic. *)

From Stdlib Require Import ZArith Lia Bool List Strings.Byte.
From stdpp Require Import base tactics option list strings gmap.
Import ListNotations.

Local Open Scope Z_scope.

(** ** Bytes *)

Definition byte_to_Z (b : byte) : Z := Z.of_N (Byte.to_N b).

(** Conversion [uint8(z)]: the low eight bits of [z]. *)
Definition byte_of_Z (z : Z) : byte :=
  match Byte.of_N (Z.to_N (z mod 256)) with
  | Some b => b
  | None => x00
  end.

(** Conversions [uint16(z)] and [uint32(z)]. *)
Definition uint16 (z : Z) : Z := z mod 65536.
Definition uint32 (z : Z) : Z := z mod 4294967296.

Definition is_uint16 (z : Z) : Prop := 0 <= z < 65536.

(** ** Go computations that may panic on an index out of range *)

Inductive go (A : Type) : Type :=
| Ret (a : A)
| PanicIndexOutOfRange.

Arguments Ret {A} a.
Arguments PanicIndexOutOfRange {A}.

Definition bind {A B : Type} (m : go A) (k : A -> go B) : go B :=
  match m with
  | Ret a => k a
  | PanicIndexOutOfRange => PanicIndexOutOfRange
  end.

Declare Scope go_scope.
Delimit Scope go_scope with go.
Notation "'do' x <- m ; k" := (bind m (fun x => k))
  (at level 10, x name, m at level 100, k at level 200) : go_scope.
Notation "'do' ' p <- m ; k" := (bind m (fun x => let 'p := x in k))
  (at level 10, p pattern, m at level 100, k at level 200) : go_scope.
Local Open Scope go_scope.

Definition returns {A : Type} (m : go A) : Prop := exists a, m = Ret a.

(** [s[i]] *)
Definition at_index {A : Type} (s : list A) (i : nat) : go A :=
  match nth_error s i with
  | Some a => Ret a
  | None => PanicIndexOutOfRange
  end.

(** [s[lo:hi]].  Go checks [hi] against the capacity of [s], which is at
    least its length; checking against the length is the stricter reading:
    a slice expression that returns here reads no byte past the end of
    [s]. *)
Definition slice {A : Type} (s : list A) (lo hi : nat) : go (list A) :=
  if (lo <=? hi)%nat && (hi <=? length s)%nat
  then Ret (firstn (hi - lo) (skipn lo s))
  else PanicIndexOutOfRange.

(** [s[lo:]] *)
Definition slice_from {A : Type} (s : list A) (lo : nat) : go (list A) :=
  slice s lo (length s).

Fixpoint mapM {A B : Type} (f : A -> go B) (l : list A) : go (list B) :=
  match l with
  | [] => Ret []
  | a :: l' => do b <- f a; do bs <- mapM f l'; Ret (b :: bs)
  end.

(** ** Byte-order and bit-packing helpers

    [bytesToUint16], [uint16ToBytes], [uint16sToBytes], [bytesToUint16s],
    [encodeBools] and [decodeBools] are called by server.go and declared in
    another file of the package. *)

(** Modelled from the spec: the body of [bytesToUint16] is not part of
    server.go.  "Byte order: big-endian for all multi-byte fields": the
    first byte is the high one.  It reads [in[0]] and [in[1]]. *)
Definition bytesToUint16 (inp : list byte) : go Z :=
  do hi <- at_index inp 0;
  do lo <- at_index inp 1;
  Ret (Z.lor (Z.shiftl (byte_to_Z hi) 8) (byte_to_Z lo)).

(** Modelled from the spec: the body of [uint16ToBytes] is not part of
    server.go.  Big-endian: high byte first. *)
Definition uint16ToBytes (v : Z) : list byte :=
  [byte_of_Z (Z.land (Z.shiftr v 8) 255); byte_of_Z (Z.land v 255)].

(** Modelled from the spec: the body of [uint16sToBytes] is not part of
    server.go.  "big-endian 16-bit values", one after the other. *)
Definition uint16sToBytes (vs : list Z) : list byte :=
  flat_map uint16ToBytes vs.

(** Modelled from the spec: the body of [bytesToUint16s] is not part of
    server.go.  The inverse of [uint16sToBytes]: consecutive pairs of bytes,
    each decoded big-endian; a trailing single byte cannot be decoded. *)
Fixpoint bytesToUint16s (inp : list byte) : go (list Z) :=
  match inp with
  | [] => Ret []
  | [_] => PanicIndexOutOfRange
  | hi :: lo :: rest =>
      do v <- bytesToUint16 [hi; lo];
      do vs <- bytesToUint16s rest;
      Ret (v :: vs)
  end.

(** The value of at most eight booleans packed least-significant-bit-first. *)
Fixpoint bitsToZ (bits : list bool) : Z :=
  match bits with
  | [] => 0
  | b :: bits' => Z.b2z b + 2 * bitsToZ bits'
  end.

(** Modelled from the spec: the body of [encodeBools] is not part of
    server.go.  "Bit-packed boolean arrays: bit index i lives at byte i/8,
    bit i%8, least-significant bit first"; one byte for eight values, the
    last byte padded with zero bits. *)
Definition encodeBools (inp : list bool) : list byte :=
  map (fun k => byte_of_Z (bitsToZ (firstn 8 (skipn (8 * k) inp))))
      (seq 0 ((length inp + 7) / 8)).

(** Modelled from the spec: the body of [decodeBools] is not part of
    server.go.  The inverse of [encodeBools]: value [i] of the [quantity]
    values is bit [i%8] of byte [in[i/8]]. *)
Definition decodeBools (quantity : Z) (inp : list byte) : go (list bool) :=
  mapM (fun i => do b <- at_index inp (i / 8);
                 Ret (Z.testbit (byte_to_Z b) (Z.of_nat (i mod 8))))
       (seq 0 (Z.to_nat quantity)).

(** ** Errors and exception codes *)

(** The package's error values.  server.go names [ErrConfigurationError],
    [ErrProtocolError], [ErrIllegalDataAddress] and [ErrServerDeviceFailure];
    the handler may also return the other Modbus errors or, as
    [HandleCoils]'s comment says, "any other error", which [ErrOther]
    stands for.  [nil] is [None] of [option error]. *)
Inductive error : Type :=
| ErrConfigurationError
| ErrProtocolError
| ErrIllegalFunction
| ErrIllegalDataAddress
| ErrIllegalDataValue
| ErrServerDeviceFailure
| ErrOther (msg : string).

#[global] Instance error_eq_dec : EqDecision error.
Proof. solve_decision. Defined.

(** The exception-code constants [EX_...] are declared outside server.go;
    their byte values are parameters of the development. *)
Class ExceptionCodes : Type := {
  EX_ILLEGAL_FUNCTION : byte;
  EX_ILLEGAL_DATA_ADDRESS : byte;
  EX_ILLEGAL_DATA_VALUE : byte;
  EX_SERVER_DEVICE_FAILURE : byte
}.

(** Modelled from the spec: the body of [mapErrorToExceptionCode] is not
    part of server.go.  "Mapped through a fixed error->exception-code table
    (unrecognized errors default to server device failure)"; the table sends
    each Modbus error to the exception code of the same name. *)
Definition mapErrorToExceptionCode `{ExceptionCodes} (err : error) : byte :=
  match err with
  | ErrIllegalFunction => EX_ILLEGAL_FUNCTION
  | ErrIllegalDataAddress => EX_ILLEGAL_DATA_ADDRESS
  | ErrIllegalDataValue => EX_ILLEGAL_DATA_VALUE
  | ErrServerDeviceFailure => EX_SERVER_DEVICE_FAILURE
  | _ => EX_SERVER_DEVICE_FAILURE
  end.

(** The exception codes of the Modbus application protocol, for running the
    model on concrete requests. *)
Definition modbusCodes : ExceptionCodes :=
  {| EX_ILLEGAL_FUNCTION := x01;
     EX_ILLEGAL_DATA_ADDRESS := x02;
     EX_ILLEGAL_DATA_VALUE := x03;
     EX_SERVER_DEVICE_FAILURE := x04 |}.

(** ** Protocol data units and function codes *)

Record pdu : Type := {
  unitId : byte;
  functionCode : byte;
  payload : list byte
}.

(** The function codes, with the values the comments of [RequestHandler]
    give them. *)
Definition FC_READ_COILS : byte := x01.
Definition FC_READ_DISCRETE_INPUTS : byte := x02.
Definition FC_READ_HOLDING_REGISTERS : byte := x03.
Definition FC_READ_INPUT_REGISTERS : byte := x04.
Definition FC_WRITE_SINGLE_COIL : byte := x05.
Definition FC_WRITE_SINGLE_REGISTER : byte := x06.
Definition FC_WRITE_MULTIPLE_COILS : byte := x0f.
Definition FC_WRITE_MULTIPLE_REGISTERS : byte := x10.

(** [0x80 | fc] on [uint8]. *)
Definition errorFunctionCode (fc : byte) : byte :=
  byte_of_Z (Z.lor 0x80 (byte_to_Z fc)).

(** [p == nil] for a pointer or an [error]. *)
Definition isNil {A : Type} (p : option A) : bool :=
  match p with
  | None => true
  | Some _ => false
  end.

(** ** The request handler

    The handler is an object of the user with a state of its own, [H]:
    each method takes the state and returns the new one next to its two
    results.  A [nil] slice is the empty list. *)
Class RequestHandler (H : Type) : Type := {
  HandleCoils :
    H -> byte -> Z -> Z -> bool -> list bool -> H * list bool * option error;
  HandleDiscreteInputs :
    H -> byte -> Z -> Z -> H * list bool * option error;
  HandleHoldingRegisters :
    H -> byte -> Z -> Z -> bool -> list Z -> H * list Z * option error;
  HandleInputRegisters :
    H -> byte -> Z -> Z -> H * list Z * option error
}.

(** ** The request dispatcher: the [switch] of [handleTransport]

    Each case function is one [case] of the switch on [req.functionCode].
    It starts from [res = nil] and [err = nil] (the loop resets [res] at
    the end of every iteration and [ReadRequest] has just set [err] to
    [nil]) and returns the handler's state with the values of [res] and
    [err] at the end of the switch; a [break] is an early return. *)

Section Dispatcher.
Context {codes : ExceptionCodes} {H : Type} {handler : RequestHandler H}.

Definition dispatched : Type := H * option pdu * option error.

Definition len {A : Type} (s : list A) : Z := Z.of_nat (length s).

(** The address check shared by the read and write-multiple cases:
    [uint32(addr) + uint32(quantity) - 1 > 0xffff]. *)
Definition pastLastAddress (addr quantity : Z) : bool :=
  uint32 (uint32 (uint32 addr + uint32 quantity) - 1) >? 0xffff.

(** [case FC_READ_COILS, FC_READ_DISCRETE_INPUTS] *)
Definition caseReadBits (h : H) (req : pdu) : go dispatched :=
  if negb (len (payload req) =? 4) then Ret (h, None, Some ErrProtocolError)
  else
    do a <- slice (payload req) 0 2;
    do addr <- bytesToUint16 a;
    do q <- slice (payload req) 2 4;
    do quantity <- bytesToUint16 q;
    if (quantity >? 2000) || (quantity =? 0)
    then Ret (h, None, Some ErrProtocolError)
    else if pastLastAddress addr quantity
    then Ret (h, None, Some ErrIllegalDataAddress)
    else
      let '(h', coils, err) :=
        if Byte.eqb (functionCode req) FC_READ_COILS
        then HandleCoils h (unitId req) addr quantity false []
        else HandleDiscreteInputs h (unitId req) addr quantity in
      let resCount := len coils in
      if isNil err && negb (resCount =? quantity)
      then Ret (h', None, Some ErrServerDeviceFailure)
      else
        match err with
        | Some e => Ret (h', None, Some e)
        | None =>
            let count := byte_of_Z (Z.quot resCount 8) in
            let count :=
              if negb (Z.rem resCount 8 =? 0)
              then byte_of_Z (byte_to_Z count + 1) else count in
            Ret (h',
                 Some {| unitId := unitId req;
                         functionCode := functionCode req;
                         payload := [count] ++ encodeBools coils |},
                 None)
        end.

(** [case FC_WRITE_SINGLE_COIL] *)
Definition caseWriteSingleCoil (h : H) (req : pdu) : go dispatched :=
  if negb (len (payload req) =? 4) then Ret (h, None, Some ErrProtocolError)
  else
    do a <- slice (payload req) 0 2;
    do addr <- bytesToUint16 a;
    do p2 <- at_index (payload req) 2;
    if negb (Byte.eqb p2 xff) && negb (Byte.eqb p2 x00)
    then Ret (h, None, Some ErrProtocolError)
    else
      do p3 <- at_index (payload req) 3;
      if negb (Byte.eqb p3 x00)
      then Ret (h, None, Some ErrProtocolError)
      else
        let '(h', _, err) :=
          HandleCoils h (unitId req) addr 1 true [Byte.eqb p2 xff] in
        match err with
        | Some e => Ret (h', None, Some e)
        | None =>
            Ret (h',
                 Some {| unitId := unitId req;
                         functionCode := functionCode req;
                         payload := ([] ++ uint16ToBytes addr) ++ [p2; p3] |},
                 None)
        end.

(** [case FC_WRITE_MULTIPLE_COILS] *)
Definition caseWriteMultipleCoils (h : H) (req : pdu) : go dispatched :=
  if len (payload req) <? 6 then Ret (h, None, Some ErrProtocolError)
  else
    do a <- slice (payload req) 0 2;
    do addr <- bytesToUint16 a;
    do q <- slice (payload req) 2 4;
    do quantity <- bytesToUint16 q;
    if (quantity >? 0x7b0) || (quantity =? 0)
    then Ret (h, None, Some ErrProtocolError)
    else if pastLastAddress addr quantity
    then Ret (h, None, Some ErrIllegalDataAddress)
    else
      let expectedLen := Z.quot quantity 8 in
      let expectedLen :=
        if negb (quantity mod 8 =? 0) then expectedLen + 1 else expectedLen in
      do p4 <- at_index (payload req) 4;
      if negb (Byte.eqb p4 (byte_of_Z expectedLen))
      then Ret (h, None, Some ErrProtocolError)
      else if negb (len (payload req) - 5 =? expectedLen)
      then Ret (h, None, Some ErrProtocolError)
      else
        do tail <- slice_from (payload req) 5;
        do args <- decodeBools quantity tail;
        let '(h', _, err) :=
          HandleCoils h (unitId req) addr quantity true args in
        match err with
        | Some e => Ret (h', None, Some e)
        | None =>
            Ret (h',
                 Some {| unitId := unitId req;
                         functionCode := functionCode req;
                         payload := ([] ++ uint16ToBytes addr)
                                      ++ uint16ToBytes quantity |},
                 None)
        end.

(** [case FC_READ_HOLDING_REGISTERS, FC_READ_INPUT_REGISTERS] *)
Definition caseReadRegisters (h : H) (req : pdu) : go dispatched :=
  if negb (len (payload req) =? 4) then Ret (h, None, Some ErrProtocolError)
  else
    do a <- slice (payload req) 0 2;
    do addr <- bytesToUint16 a;
    do q <- slice (payload req) 2 4;
    do quantity <- bytesToUint16 q;
    if (quantity >? 0x007d) || (quantity =? 0)
    then Ret (h, None, Some ErrProtocolError)
    else if pastLastAddress addr quantity
    then Ret (h, None, Some ErrIllegalDataAddress)
    else
      let '(h', regs, err) :=
        if Byte.eqb (functionCode req) FC_READ_HOLDING_REGISTERS
        then HandleHoldingRegisters h (unitId req) addr quantity false []
        else HandleInputRegisters h (unitId req) addr quantity in
      let resCount := len regs in
      if isNil err && negb (resCount =? quantity)
      then Ret (h', None, Some ErrServerDeviceFailure)
      else
        match err with
        | Some e => Ret (h', None, Some e)
        | None =>
            Ret (h',
                 Some {| unitId := unitId req;
                         functionCode := functionCode req;
                         payload := [byte_of_Z (resCount * 2)]
                                      ++ uint16sToBytes regs |},
                 None)
        end.

(** [case FC_WRITE_SINGLE_REGISTER] *)
Definition caseWriteSingleRegister (h : H) (req : pdu) : go dispatched :=
  if negb (len (payload req) =? 4) then Ret (h, None, Some ErrProtocolError)
  else
    do a <- slice (payload req) 0 2;
    do addr <- bytesToUint16 a;
    do v <- slice (payload req) 2 4;
    do value <- bytesToUint16 v;
    let '(h', _, err) :=
      HandleHoldingRegisters h (unitId req) addr 1 true [value] in
    match err with
    | Some e => Ret (h', None, Some e)
    | None =>
        Ret (h',
             Some {| unitId := unitId req;
                     functionCode := functionCode req;
                     payload := ([] ++ uint16ToBytes addr)
                                  ++ uint16ToBytes value |},
             None)
    end.

(** [case FC_WRITE_MULTIPLE_REGISTERS] *)
Definition caseWriteMultipleRegisters (h : H) (req : pdu) : go dispatched :=
  if len (payload req) <? 6 then Ret (h, None, Some ErrProtocolError)
  else
    do a <- slice (payload req) 0 2;
    do addr <- bytesToUint16 a;
    do q <- slice (payload req) 2 4;
    do quantity <- bytesToUint16 q;
    if (quantity >? 0x007b) || (quantity =? 0)
    then Ret (h, None, Some ErrProtocolError)
    else if pastLastAddress addr quantity
    then Ret (h, None, Some ErrIllegalDataAddress)
    else
      let expectedLen := quantity * 2 in
      do p4 <- at_index (payload req) 4;
      if negb (Byte.eqb p4 (byte_of_Z expectedLen))
      then Ret (h, None, Some ErrProtocolError)
      else if negb (len (payload req) - 5 =? expectedLen)
      then Ret (h, None, Some ErrProtocolError)
      else
        do tail <- slice_from (payload req) 5;
        do args <- bytesToUint16s tail;
        let '(h', _, err) :=
          HandleHoldingRegisters h (unitId req) addr quantity true args in
        match err with
        | Some e => Ret (h', None, Some e)
        | None =>
            Ret (h',
                 Some {| unitId := unitId req;
                         functionCode := functionCode req;
                         payload := ([] ++ uint16ToBytes addr)
                                      ++ uint16ToBytes quantity |},
                 None)
        end.

(** [default] *)
Definition caseDefault (h : H) (req : pdu) : go dispatched :=
  Ret (h,
       Some {| unitId := unitId req;
               functionCode := errorFunctionCode (functionCode req);
               payload := [EX_ILLEGAL_FUNCTION] |},
       None).

(** [switch req.functionCode] *)
Definition dispatch (h : H) (req : pdu) : go dispatched :=
  let fc := functionCode req in
  if Byte.eqb fc FC_READ_COILS || Byte.eqb fc FC_READ_DISCRETE_INPUTS
  then caseReadBits h req
  else if Byte.eqb fc FC_WRITE_SINGLE_COIL
  then caseWriteSingleCoil h req
  else if Byte.eqb fc FC_WRITE_MULTIPLE_COILS
  then caseWriteMultipleCoils h req
  else if Byte.eqb fc FC_READ_HOLDING_REGISTERS
          || Byte.eqb fc FC_READ_INPUT_REGISTERS
  then caseReadRegisters h req
  else if Byte.eqb fc FC_WRITE_SINGLE_REGISTER
  then caseWriteSingleRegister h req
  else if Byte.eqb fc FC_WRITE_MULTIPLE_REGISTERS
  then caseWriteMultipleRegisters h req
  else caseDefault h req.

(** ** The worker loop of [handleTransport]

    What the loop does to its transport: [t.WriteResponse(res)] and
    [t.Close()].  [res] is a pointer, [nil] being [None]. *)
Inductive event : Type :=
| WriteResponse (res : option pdu)
| Close.

(** What is left of one iteration after the switch: the defensive check,
    the mapping of [err], and the write.  The boolean tells whether the
    loop goes on ([true]) or [handleTransport] returns ([false]).  The
    error [t.WriteResponse] returns is logged and dropped. *)
Definition finish (req : pdu) (res : option pdu) (err : option error)
  : list event * bool :=
  let err :=
    if isNil err && isNil res
    then Some ErrServerDeviceFailure else err in
  match err with
  | Some e =>
      if bool_decide (e = ErrProtocolError)
      then ([Close], false)
      else
        ([WriteResponse
            (Some {| unitId := unitId req;
                     functionCode := errorFunctionCode (functionCode req);
                     payload := [mapErrorToExceptionCode e] |})],
         true)
  | None => ([WriteResponse res], true)
  end.

(** One iteration of the loop, for a request [ReadRequest] returned. *)
Definition serve (h : H) (req : pdu) : go (H * list event * bool) :=
  do '(h', res, err) <- dispatch h req;
  let '(evs, continue) := finish req res err in
  Ret (h', evs, continue).

(** [handleTransport].  The transport is the list of the requests its
    [ReadRequest] returns before it fails (idle timeout, end of stream,
    connection closed): the loop takes them one by one and returns at the
    first failed read or at a protocol error.  The result is the handler's
    final state and everything the loop did to the transport, in order. *)
Fixpoint handleTransport (h : H) (reqs : list pdu) : go (H * list event) :=
  match reqs with
  | [] => Ret (h, [])
  | req :: rest =>
      do '(h', evs, continue) <- serve h req;
      if continue
      then do '(h'', evs') <- handleTransport h' rest; Ret (h'', evs ++ evs')
      else Ret (h', evs)
  end.

End Dispatcher.

(** A handler for running the model: it answers every call with the same
    results and counts the calls it receives. *)
Definition scriptedHandler (bits : list bool) (regs : list Z)
    (err : option error) : RequestHandler nat :=
  {| HandleCoils := fun n _ _ _ _ _ => (S n, bits, err);
     HandleDiscreteInputs := fun n _ _ _ => (S n, bits, err);
     HandleHoldingRegisters := fun n _ _ _ _ _ => (S n, regs, err);
     HandleInputRegisters := fun n _ _ _ => (S n, regs, err) |}.

(** ** The server core *)

(** A connection ([net.Conn]) is known by its identity. *)
Definition conn : Type := nat.

Record ServerConfiguration : Type := {
  URL : string;
  Timeout : Z;
  MaxClients : N
}.

(** The transport types are declared outside server.go, which names
    [TCP_TRANSPORT] only; [OTHER_TRANSPORT] is any other value, the zero
    value among them. *)
Inductive transportType : Type :=
| OTHER_TRANSPORT
| TCP_TRANSPORT.

(** The server and what its goroutines have done to the sockets.  The
    first five fields are those of [ModbusServer] ([tcpListener] is kept as
    [listening]: bound and not yet closed).  [closed] is the set of
    connections [Close] was called on.  The other fields are the goroutines
    outside the lock: [decided] holds the accept loops that left the
    critical section with their [accepted] flag and have not acted on it
    yet, [serving] the workers inside [handleTransport], [leaving] the
    workers that removed their connection and have not closed it yet. *)
Record server : Type := {
  conf : ServerConfiguration;
  started : bool;
  listening : bool;
  tcpClients : list conn;
  transport : transportType;
  closed : gset conn;
  decided : list (conn * bool);
  serving : list conn;
  leaving : list conn
}.

Definition second : Z := 1000000000.

(** [NewServer] *)
Definition NewServer (c : ServerConfiguration) : server * option error :=
  let ms := {| conf := c; started := false; listening := false;
               tcpClients := []; transport := OTHER_TRANSPORT;
               closed := ∅; decided := []; serving := []; leaving := [] |} in
  if String.prefix "tcp://" (URL c)
  then
    let url := String.substring 6 (String.length (URL c) - 6) (URL c) in
    let timeout := if Timeout c =? 0 then 120 * second else Timeout c in
    let maxClients := if (MaxClients c =? 0)%N then 10%N else MaxClients c in
    ({| conf := {| URL := url; Timeout := timeout; MaxClients := maxClients |};
        started := false; listening := false;
        tcpClients := []; transport := TCP_TRANSPORT;
        closed := ∅; decided := []; serving := []; leaving := [] |}, None)
  else (ms, Some ErrConfigurationError).

(** [Start].  [listenErr] is the error of [net.Listen]. *)
Definition Start (ms : server) (listenErr : option error)
  : server * option error :=
  if started ms then (ms, None)
  else
    match transport ms with
    | TCP_TRANSPORT =>
        match listenErr with
        | Some e => (ms, Some e)
        | None =>
            ({| conf := conf ms; started := true; listening := true;
                tcpClients := tcpClients ms; transport := transport ms;
                closed := closed ms; decided := decided ms;
                serving := serving ms; leaving := leaving ms |}, None)
        end
    | OTHER_TRANSPORT => (ms, Some ErrConfigurationError)
    end.

(** [Stop].  [closeErr] is the error of [ms.tcpListener.Close()]. *)
Definition Stop (ms : server) (closeErr : option error)
  : server * option error :=
  if negb (started ms) then (ms, None)
  else
    match transport ms with
    | TCP_TRANSPORT =>
        ({| conf := conf ms; started := false; listening := false;
            tcpClients := tcpClients ms; transport := transport ms;
            closed := closed ms ∪ list_to_set (tcpClients ms);
            decided := decided ms;
            serving := serving ms; leaving := leaving ms |}, closeErr)
    | OTHER_TRANSPORT =>
        ({| conf := conf ms; started := false; listening := listening ms;
            tcpClients := tcpClients ms; transport := transport ms;
            closed := closed ms; decided := decided ms;
            serving := serving ms; leaving := leaving ms |}, None)
    end.

(** The critical section of [acceptTCPClients], for a connection [sock]
    that [Accept] returned: the connection limit. *)
Definition admission (ms : server) (sock : conn) : server :=
  if (N.of_nat (length (tcpClients ms)) <? MaxClients (conf ms))%N
  then
    {| conf := conf ms; started := started ms; listening := listening ms;
       tcpClients := tcpClients ms ++ [sock]; transport := transport ms;
       closed := closed ms; decided := decided ms ++ [(sock, true)];
       serving := serving ms; leaving := leaving ms |}
  else
    {| conf := conf ms; started := started ms; listening := listening ms;
       tcpClients := tcpClients ms; transport := transport ms;
       closed := closed ms; decided := decided ms ++ [(sock, false)];
       serving := serving ms; leaving := leaving ms |}.

(** What an accept loop does after the critical section, by its
    [accepted] flag: [go ms.handleTCPClient(sock)] or [sock.Close()]. *)
Definition actOn (ms : server) (sock : conn) (accepted : bool) : server :=
  if accepted
  then
    {| conf := conf ms; started := started ms; listening := listening ms;
       tcpClients := tcpClients ms; transport := transport ms;
       closed := closed ms; decided := decided ms;
       serving := serving ms ++ [sock]; leaving := leaving ms |}
  else
    {| conf := conf ms; started := started ms; listening := listening ms;
       tcpClients := tcpClients ms; transport := transport ms;
       closed := closed ms ∪ {[sock]}; decided := decided ms;
       serving := serving ms; leaving := leaving ms |}.

(** The index of the first entry equal to [sock], as the [for i := range]
    loop of [handleTCPClient] finds it. *)
Fixpoint indexOf (clients : list conn) (sock : conn) : option nat :=
  match clients with
  | [] => None
  | c :: clients' =>
      if Nat.eqb c sock then Some O
      else option_map S (indexOf clients' sock)
  end.

(** The removal loop of [handleTCPClient]: the first entry equal to [sock]
    is overwritten with the last entry and the slice loses its last entry.
    An index was found, so the slice is not empty and [len-1] is an index
    of it. *)
Definition removeClient (clients : list conn) (sock : conn) : list conn :=
  match indexOf clients sock with
  | Some i =>
      match clients !! (length clients - 1)%nat with
      | Some lastClient =>
          take (length clients - 1)%nat (<[i := lastClient]> clients)
      | None => clients
      end
  | None => clients
  end.

(** The critical section of [handleTCPClient], once [handleTransport] has
    returned. *)
Definition deregister (ms : server) (sock : conn) : server :=
  {| conf := conf ms; started := started ms; listening := listening ms;
     tcpClients := removeClient (tcpClients ms) sock;
     transport := transport ms;
     closed := closed ms; decided := decided ms;
     serving := serving ms; leaving := leaving ms ++ [sock] |}.

(** The last statement of [handleTCPClient]: [sock.Close()]. *)
Definition closeConn (ms : server) (sock : conn) : server :=
  {| conf := conf ms; started := started ms; listening := listening ms;
     tcpClients := tcpClients ms; transport := transport ms;
     closed := closed ms ∪ {[sock]}; decided := decided ms;
     serving := serving ms; leaving := leaving ms |}.

Definition withDecided (ms : server) (d : list (conn * bool)) : server :=
  {| conf := conf ms; started := started ms; listening := listening ms;
     tcpClients := tcpClients ms; transport := transport ms;
     closed := closed ms; decided := d;
     serving := serving ms; leaving := leaving ms |}.

Definition withServing (ms : server) (w : list conn) : server :=
  {| conf := conf ms; started := started ms; listening := listening ms;
     tcpClients := tcpClients ms; transport := transport ms;
     closed := closed ms; decided := decided ms;
     serving := w; leaving := leaving ms |}.

Definition withLeaving (ms : server) (w : list conn) : server :=
  {| conf := conf ms; started := started ms; listening := listening ms;
     tcpClients := tcpClients ms; transport := transport ms;
     closed := closed ms; decided := decided ms;
     serving := serving ms; leaving := w |}.

(** One atomic action of one goroutine.  The lock makes each critical
    section atomic; what a goroutine does outside the lock is an action of
    its own, so every interleaving of the goroutines is a sequence of
    these. *)
Inductive step : server -> server -> Prop :=
| step_Start ms listenErr :
    step ms (Start ms listenErr).1
| step_Stop ms closeErr :
    step ms (Stop ms closeErr).1
| step_admission ms sock :
    step ms (admission ms sock)
| step_actOn ms d1 sock accepted d2 :
    decided ms = d1 ++ (sock, accepted) :: d2 ->
    step ms (actOn (withDecided ms (d1 ++ d2)) sock accepted)
| step_deregister ms w1 sock w2 :
    serving ms = w1 ++ sock :: w2 ->
    step ms (deregister (withServing ms (w1 ++ w2)) sock)
| step_closeConn ms w1 sock w2 :
    leaving ms = w1 ++ sock :: w2 ->
    step ms (closeConn (withLeaving ms (w1 ++ w2)) sock).

(** The states a server built by [NewServer] goes through. *)
Inductive reachable (c : ServerConfiguration) : server -> Prop :=
| reachable_new ms :
    NewServer c = (ms, None) -> reachable c ms
| reachable_step ms ms' :
    reachable c ms -> step ms ms' -> reachable c ms'.

(** ** Concrete servers and requests, for running the model *)

Definition exampleConf : ServerConfiguration :=
  {| URL := "tcp://[::]:502"; Timeout := 0; MaxClients := 2 |}.

(** A server after [NewServer] and [Start]. *)
Definition listeningServer : server :=
  (Start (NewServer exampleConf).1 None).1.

(** The same server once its accept loop has let connection 7 in and
    started the worker of that connection. *)
Definition serverWithClient : server :=
  actOn (withDecided (admission listeningServer 7%nat) []) 7%nat true.

(** Read Coils, address 0, quantity 1. *)
Definition readOneCoil : pdu :=
  {| unitId := x01; functionCode := FC_READ_COILS;
     payload := [x00; x00; x00; x01] |}.

(** Read Holding Registers, address 0, quantity 3. *)
Definition readThreeRegisters : pdu :=
  {| unitId := x01; functionCode := FC_READ_HOLDING_REGISTERS;
     payload := [x00; x00; x00; x03] |}.

(** * Properties *)

(** ** Bytes and 16-bit words *)

Lemma byte_to_Z_range (b : byte) : 0 <= byte_to_Z b < 256.
Proof.
  unfold byte_to_Z. pose proof (Byte.to_N_bounded b). lia.
Qed.

Lemma byte_of_to_Z (b : byte) : byte_of_Z (byte_to_Z b) = b.
Proof.
  unfold byte_of_Z. pose proof (byte_to_Z_range b) as Hb.
  rewrite Z.mod_small by exact Hb.
  unfold byte_to_Z. rewrite N2Z.id, Byte.of_to_N. reflexivity.
Qed.

Lemma byte_to_of_Z (z : Z) : 0 <= z < 256 -> byte_to_Z (byte_of_Z z) = z.
Proof.
  intros Hz. unfold byte_of_Z. rewrite Z.mod_small by exact Hz.
  destruct (Byte.of_N (Z.to_N z)) as [b|] eqn:E.
  - apply Byte.to_of_N in E. unfold byte_to_Z. rewrite E. lia.
  - apply Byte.of_N_None_iff in E. lia.
Qed.

Lemma byte_of_Z_inj (x y : Z) :
  0 <= x < 256 -> 0 <= y < 256 -> byte_of_Z x = byte_of_Z y -> x = y.
Proof.
  intros Hx Hy E. rewrite <- (byte_to_of_Z x Hx), <- (byte_to_of_Z y Hy).
  now rewrite E.
Qed.

Lemma word_of_bytes (hi lo : byte) :
  Z.lor (Z.shiftl (byte_to_Z hi) 8) (byte_to_Z lo)
  = 256 * byte_to_Z hi + byte_to_Z lo.
Proof.
  pose proof (byte_to_Z_range lo) as Hlo.
  rewrite <- Z.add_nocarry_lor.
  { rewrite Z.shiftl_mul_pow2 by lia. change (2 ^ 8) with 256. lia. }
  apply Z.bits_inj'. intros n Hn. rewrite Z.land_spec, Z.bits_0.
  destruct (Z.lt_ge_cases n 8) as [Hlt|Hge].
  - rewrite Z.shiftl_spec_low by exact Hlt. reflexivity.
  - replace (Z.testbit (byte_to_Z lo) n) with false; [apply andb_false_r|].
    symmetry. apply Z.bits_above_log2; [lia|].
    destruct (Z.eq_dec (byte_to_Z lo) 0) as [E|E]; [rewrite E; simpl; lia|].
    apply Z.log2_lt_pow2; [lia|].
    apply Z.lt_le_trans with (2 ^ 8); [change (2 ^ 8) with 256; lia|].
    apply Z.pow_le_mono_r; lia.
Qed.

Lemma bytesToUint16_pair (hi lo : byte) :
  bytesToUint16 [hi; lo] = Ret (256 * byte_to_Z hi + byte_to_Z lo).
Proof.
  unfold bytesToUint16. simpl. now rewrite word_of_bytes.
Qed.

Lemma bytesToUint16_range (hi lo : byte) :
  is_uint16 (256 * byte_to_Z hi + byte_to_Z lo).
Proof.
  pose proof (byte_to_Z_range hi). pose proof (byte_to_Z_range lo).
  unfold is_uint16. lia.
Qed.

Lemma uint16ToBytes_spec (v : Z) :
  is_uint16 v ->
  uint16ToBytes v = [byte_of_Z (v / 256); byte_of_Z (v mod 256)].
Proof.
  intros [H0 H1]. unfold uint16ToBytes.
  rewrite Z.shiftr_div_pow2 by lia. change (2 ^ 8) with 256.
  change 255 with (Z.ones 8). rewrite !Z.land_ones by lia.
  change (2 ^ 8) with 256.
  rewrite (Z.mod_small (v / 256)); [reflexivity|].
  split; [apply Z.div_pos; lia|apply Z.div_lt_upper_bound; lia].
Qed.

Lemma uint16_roundtrip (v : Z) :
  is_uint16 v ->
  bytesToUint16 (uint16ToBytes v) = Ret v.
Proof.
  intros Hv. rewrite uint16ToBytes_spec by exact Hv.
  rewrite bytesToUint16_pair. destruct Hv as [H0 H1].
  rewrite !byte_to_of_Z.
  - f_equal. pose proof (Z.div_mod v 256). lia.
  - apply Z.mod_pos_bound. lia.
  - split; [apply Z.div_pos; lia|apply Z.div_lt_upper_bound; lia].
Qed.

Lemma uint16s_roundtrip (vs : list Z) :
  Forall is_uint16 vs ->
  bytesToUint16s (uint16sToBytes vs) = Ret vs.
Proof.
  induction 1 as [|v vs Hv _ IH]; [reflexivity|].
  unfold uint16sToBytes in *. cbn [flat_map].
  pose proof (uint16_roundtrip v Hv) as Hrt.
  unfold uint16ToBytes in *. cbn [app bytesToUint16s].
  rewrite Hrt. cbn [bind]. rewrite IH. reflexivity.
Qed.

Lemma uint16sToBytes_length (vs : list Z) :
  length (uint16sToBytes vs) = (2 * length vs)%nat.
Proof.
  induction vs as [|v vs IH]; [reflexivity|].
  unfold uint16sToBytes in *. cbn [flat_map]. rewrite length_app, IH.
  simpl. lia.
Qed.

(** ** Bit packing *)

Lemma bitsToZ_range (bits : list bool) :
  0 <= bitsToZ bits < 2 ^ Z.of_nat (length bits).
Proof.
  induction bits as [|b bits IH]; [simpl; lia|].
  cbn [bitsToZ length]. rewrite Nat2Z.inj_succ, Z.pow_succ_r by lia.
  destruct b; simpl Z.b2z; lia.
Qed.

Lemma bitsToZ_byte (bits : list bool) :
  (length bits <= 8)%nat -> 0 <= bitsToZ bits < 256.
Proof.
  intros Hlen. pose proof (bitsToZ_range bits) as Hr.
  assert (2 ^ Z.of_nat (length bits) <= 2 ^ 8)
    by (apply Z.pow_le_mono_r; lia).
  change (2 ^ 8) with 256 in *. lia.
Qed.

Lemma bitsToZ_testbit (bits : list bool) (j : nat) :
  Z.testbit (bitsToZ bits) (Z.of_nat j) = nth j bits false.
Proof.
  revert j. induction bits as [|b bits IH]; intros j.
  - simpl. rewrite Z.bits_0. now destruct j.
  - cbn [bitsToZ]. rewrite Z.add_comm. destruct j as [|j].
    + apply Z.testbit_0_r.
    + rewrite Nat2Z.inj_succ, Z.testbit_succ_r by lia. apply IH.
Qed.

Lemma encodeBools_length (inp : list bool) :
  length (encodeBools inp) = ((length inp + 7) / 8)%nat.
Proof.
  unfold encodeBools. now rewrite length_map, length_seq.
Qed.

Lemma encodeBools_nth (inp : list bool) (k : nat) :
  (k < (length inp + 7) / 8)%nat ->
  nth k (encodeBools inp) x00
  = byte_of_Z (bitsToZ (firstn 8 (skipn (8 * k) inp))).
Proof.
  intros Hk. unfold encodeBools.
  set (f := fun k => byte_of_Z (bitsToZ (firstn 8 (skipn (8 * k) inp)))).
  rewrite (nth_indep _ x00 (f O)) by now rewrite length_map, length_seq.
  rewrite (map_nth f), seq_nth by exact Hk. reflexivity.
Qed.

(** Bit [i mod 8] of byte [i / 8] is value [i]. *)
Lemma encodeBools_bit (inp : list bool) (i : nat) :
  (i < length inp)%nat ->
  Z.testbit (byte_to_Z (nth (i / 8) (encodeBools inp) x00))
            (Z.of_nat (i mod 8))
  = nth i inp false.
Proof.
  intros Hi.
  assert (Hk : (i / 8 < (length inp + 7) / 8)%nat).
  { apply Nat.Div0.div_lt_upper_bound.
    pose proof (Nat.Div0.div_mod (length inp + 7) 8).
    pose proof (Nat.mod_upper_bound (length inp + 7) 8).
    pose proof (Nat.Div0.div_mod i 8).
    pose proof (Nat.mod_upper_bound i 8). lia. }
  rewrite encodeBools_nth by exact Hk.
  rewrite byte_to_of_Z
    by (apply bitsToZ_byte; rewrite length_firstn; lia).
  rewrite bitsToZ_testbit, nth_firstn.
  pose proof (Nat.mod_upper_bound i 8 ltac:(lia)) as Hm.
  destruct (Nat.ltb_spec (i mod 8) 8) as [_|?]; [|lia].
  rewrite nth_skipn. f_equal.
  pose proof (Nat.Div0.div_mod i 8). lia.
Qed.

Lemma mapM_Ret {A B : Type} (f : A -> go B) (g : A -> B) (l : list A) :
  (forall a, In a l -> f a = Ret (g a)) ->
  mapM f l = Ret (map g l).
Proof.
  induction l as [|a l IH]; intros Hf; [reflexivity|].
  cbn [mapM map]. rewrite (Hf a) by now left. cbn [bind].
  rewrite IH by (intros; apply Hf; now right). reflexivity.
Qed.

Lemma map_nth_seq {A : Type} (d : A) (l : list A) :
  map (fun i => nth i l d) (seq 0 (length l)) = l.
Proof.
  induction l as [|a l IH]; [reflexivity|].
  cbn [length seq map nth]. f_equal.
  rewrite <- seq_shift, map_map. exact IH.
Qed.

Lemma at_index_nth {A : Type} (s : list A) (i : nat) (d : A) :
  (i < length s)%nat -> at_index s i = Ret (nth i s d).
Proof.
  intros Hi. unfold at_index.
  destruct (nth_error s i) as [a|] eqn:E.
  - now rewrite (nth_error_nth _ _ d E).
  - apply nth_error_None in E. lia.
Qed.

(** Decoding the packed bytes gives the values back, in order. *)
Lemma decodeBools_encodeBools (inp : list bool) :
  decodeBools (Z.of_nat (length inp)) (encodeBools inp) = Ret inp.
Proof.
  unfold decodeBools. rewrite Nat2Z.id.
  rewrite (mapM_Ret _ (fun i => nth i inp false)).
  - now rewrite map_nth_seq.
  - intros i Hi. apply in_seq in Hi.
    rewrite (at_index_nth _ _ x00).
    + cbn [bind]. f_equal. apply encodeBools_bit. lia.
    + rewrite encodeBools_length.
      apply Nat.Div0.div_lt_upper_bound.
      pose proof (Nat.Div0.div_mod (length inp + 7) 8).
      pose proof (Nat.mod_upper_bound (length inp + 7) 8).
      pose proof (Nat.Div0.div_mod i 8).
      pose proof (Nat.mod_upper_bound i 8). lia.
Qed.

(** [decodeBools] reads inside its input when the input has one byte for
    eight values. *)
Lemma decodeBools_returns (quantity : Z) (inp : list byte) :
  quantity <= 8 * len inp ->
  returns (decodeBools quantity inp).
Proof.
  intros Hq. unfold decodeBools, returns.
  eexists. apply (mapM_Ret _
    (fun i => Z.testbit (byte_to_Z (nth (i / 8) inp x00))
                        (Z.of_nat (i mod 8)))).
  intros i Hi. apply in_seq in Hi.
  rewrite (at_index_nth _ _ x00); [reflexivity|].
  unfold len in Hq. apply Nat.Div0.div_lt_upper_bound. lia.
Qed.

Lemma bytesToUint16s_returns (inp : list byte) (n : nat) :
  length inp = (2 * n)%nat ->
  returns (bytesToUint16s inp).
Proof.
  revert inp. induction n as [|n IH]; intros inp Hlen.
  - destruct inp; [now exists []|discriminate].
  - destruct inp as [|hi [|lo rest]]; try (simpl in Hlen; lia).
    destruct (IH rest) as [vs Hvs]; [simpl in Hlen; lia|].
    cbn [bytesToUint16s]. rewrite bytesToUint16_pair. cbn [bind].
    rewrite Hvs. cbn [bind]. now eexists.
Qed.

(** ** Reading the fields of a payload *)

Lemma len_4 {A : Type} (a b c d : A) : len [a; b; c; d] = 4.
Proof. reflexivity. Qed.

Lemma len_ge_6 {A : Type} (a b c d e f : A) (s : list A) :
  len (a :: b :: c :: d :: e :: f :: s) = 6 + len s.
Proof. unfold len. cbn [length]. lia. Qed.

Lemma len_nonneg {A : Type} (s : list A) : 0 <= len s.
Proof. unfold len. lia. Qed.

Lemma slice_0_2 {A : Type} (a b : A) (s : list A) :
  slice (a :: b :: s) 0 2 = Ret [a; b].
Proof. reflexivity. Qed.

Lemma slice_2_4 {A : Type} (a b c d : A) (s : list A) :
  slice (a :: b :: c :: d :: s) 2 4 = Ret [c; d].
Proof. reflexivity. Qed.

Lemma at_index_2 {A : Type} (a b c : A) (s : list A) :
  at_index (a :: b :: c :: s) 2 = Ret c.
Proof. reflexivity. Qed.

Lemma at_index_3 {A : Type} (a b c d : A) (s : list A) :
  at_index (a :: b :: c :: d :: s) 3 = Ret d.
Proof. reflexivity. Qed.

Lemma at_index_4 {A : Type} (a b c d e : A) (s : list A) :
  at_index (a :: b :: c :: d :: e :: s) 4 = Ret e.
Proof. reflexivity. Qed.

Lemma slice_from_5 {A : Type} (a b c d e : A) (s : list A) :
  slice_from (a :: b :: c :: d :: e :: s) 5 = Ret s.
Proof.
  unfold slice_from, slice. cbn [length].
  rewrite Nat.leb_refl.
  replace (5 <=? S (S (S (S (S (length s))))))%nat with true
    by (symmetry; apply Nat.leb_le; lia).
  cbn [andb]. f_equal.
  replace (S (S (S (S (S (length s))))) - 5)%nat with (length s) by lia.
  cbn [skipn]. apply firstn_all.
Qed.

Create Rewrite HintDb fields.
#[local] Hint Rewrite @len_4 @len_ge_6 @slice_0_2 @slice_2_4 @at_index_2
  @at_index_3 @at_index_4 @slice_from_5 bytesToUint16_pair : fields.

(** Replace the field accesses of a decoded payload by their values. *)
Ltac read_fields := repeat (autorewrite with fields; cbn [bind]).

Lemma payload_of_len_4 {A : Type} (s : list A) :
  len s = 4 -> exists a b c d, s = [a; b; c; d].
Proof.
  unfold len. intros Hs.
  destruct s as [|a [|b [|c [|d [|e s]]]]]; cbn [length] in Hs; try lia.
  now exists a, b, c, d.
Qed.

Lemma payload_of_len_ge_6 {A : Type} (s : list A) :
  6 <= len s -> exists a b c d e f t, s = a :: b :: c :: d :: e :: f :: t.
Proof.
  unfold len. intros Hs.
  destruct s as [|a [|b [|c [|d [|e [|f t]]]]]]; cbn [length] in Hs; try lia.
  now exists a, b, c, d, e, f, t.
Qed.

Lemma byte_eqb_refl (b : byte) : Byte.eqb b b = true.
Proof. now apply Byte.byte_dec_lb. Qed.

Lemma byte_eqb_neq (a b : byte) : a <> b -> Byte.eqb a b = false.
Proof.
  intros Hne. destruct (Byte.eqb a b) eqn:E; [|reflexivity].
  apply Byte.byte_dec_bl in E. contradiction.
Qed.

(** On 16-bit operands the 32-bit sum of the address check does not wrap. *)
Lemma pastLastAddress_spec (addr quantity : Z) :
  is_uint16 addr -> is_uint16 quantity -> 1 <= quantity ->
  pastLastAddress addr quantity = (addr + quantity - 1 >? 0xffff).
Proof.
  unfold is_uint16, pastLastAddress, uint32. intros Ha Hq H1.
  rewrite (Z.mod_small addr), (Z.mod_small quantity) by lia.
  rewrite (Z.mod_small (addr + quantity)) by lia.
  rewrite Z.mod_small by lia. reflexivity.
Qed.

Lemma bytesToUint16_inv (hi lo : byte) (v : Z) :
  bytesToUint16 [hi; lo] = Ret v ->
  v = 256 * byte_to_Z hi + byte_to_Z lo /\ is_uint16 v.
Proof.
  rewrite bytesToUint16_pair. intros [= <-].
  split; [reflexivity|apply bytesToUint16_range].
Qed.

(** ** The dispatcher, case by case *)

Section DispatcherFacts.
Context {codes : ExceptionCodes} {H : Type} {handler : RequestHandler H}.

Implicit Types (h : H) (req : pdu) (rest : list pdu).

Lemma dispatch_read_bits h req :
  functionCode req = FC_READ_COILS
  \/ functionCode req = FC_READ_DISCRETE_INPUTS ->
  dispatch h req = caseReadBits h req.
Proof. intros [E|E]; unfold dispatch; rewrite E; reflexivity. Qed.

Lemma dispatch_write_single_coil h req :
  functionCode req = FC_WRITE_SINGLE_COIL ->
  dispatch h req = caseWriteSingleCoil h req.
Proof. intros E; unfold dispatch; rewrite E; reflexivity. Qed.

Lemma dispatch_write_multiple_coils h req :
  functionCode req = FC_WRITE_MULTIPLE_COILS ->
  dispatch h req = caseWriteMultipleCoils h req.
Proof. intros E; unfold dispatch; rewrite E; reflexivity. Qed.

Lemma dispatch_read_registers h req :
  functionCode req = FC_READ_HOLDING_REGISTERS
  \/ functionCode req = FC_READ_INPUT_REGISTERS ->
  dispatch h req = caseReadRegisters h req.
Proof. intros [E|E]; unfold dispatch; rewrite E; reflexivity. Qed.

Lemma dispatch_write_multiple_registers h req :
  functionCode req = FC_WRITE_MULTIPLE_REGISTERS ->
  dispatch h req = caseWriteMultipleRegisters h req.
Proof. intros E; unfold dispatch; rewrite E; reflexivity. Qed.

(** *** The end of an iteration *)

Lemma finish_protocol_error req res :
  finish req res (Some ErrProtocolError) = ([Close], false).
Proof. reflexivity. Qed.

Lemma finish_error req res e :
  e <> ErrProtocolError ->
  finish req res (Some e)
  = ([WriteResponse
        (Some {| unitId := unitId req;
                 functionCode := errorFunctionCode (functionCode req);
                 payload := [mapErrorToExceptionCode e] |})],
     true).
Proof.
  intros Hne. unfold finish. cbn [isNil andb].
  now rewrite bool_decide_eq_false_2.
Qed.

Lemma finish_response req r :
  finish req (Some r) None = ([WriteResponse (Some r)], true).
Proof. reflexivity. Qed.

Lemma serve_dispatched h req h' res err :
  dispatch h req = Ret (h', res, err) ->
  serve h req = Ret (h', (finish req res err).1, (finish req res err).2).
Proof.
  intros E. unfold serve. rewrite E. cbn [bind].
  now destruct (finish req res err).
Qed.

Lemma handleTransport_continue h req rest h' evs :
  serve h req = Ret (h', evs, true) ->
  handleTransport h (req :: rest)
  = (do '(h'', evs') <- handleTransport h' rest; Ret (h'', evs ++ evs')).
Proof. intros E. cbn [handleTransport]. now rewrite E. Qed.

Lemma handleTransport_return h req rest h' evs :
  serve h req = Ret (h', evs, false) ->
  handleTransport h (req :: rest) = Ret (h', evs).
Proof. intros E. cbn [handleTransport]. now rewrite E. Qed.

(** *** Quantity and address checks *)

Lemma quantity_check_fails (quantity limit : Z) :
  quantity = 0 \/ quantity > limit ->
  (quantity >? limit) || (quantity =? 0) = true.
Proof. intros Hq. apply orb_true_iff. lia. Qed.

Lemma quantity_check_passes (quantity limit : Z) :
  1 <= quantity <= limit ->
  (quantity >? limit) || (quantity =? 0) = false.
Proof. intros Hq. apply orb_false_iff. lia. Qed.

Lemma caseReadBits_quantity h req a1 a0 q1 q0 quantity :
  payload req = [a1; a0; q1; q0] ->
  bytesToUint16 [q1; q0] = Ret quantity ->
  quantity = 0 \/ quantity > 2000 ->
  caseReadBits h req = Ret (h, None, Some ErrProtocolError).
Proof.
  intros Hp Hq Hbad. apply bytesToUint16_inv in Hq as [-> _].
  unfold caseReadBits. rewrite Hp. read_fields. cbn [Z.eqb Pos.eqb negb].
  now rewrite quantity_check_fails.
Qed.

Lemma caseReadBits_address h req a1 a0 q1 q0 addr quantity :
  payload req = [a1; a0; q1; q0] ->
  bytesToUint16 [a1; a0] = Ret addr ->
  bytesToUint16 [q1; q0] = Ret quantity ->
  1 <= quantity <= 2000 ->
  addr + quantity - 1 > 0xffff ->
  caseReadBits h req = Ret (h, None, Some ErrIllegalDataAddress).
Proof.
  intros Hp Ha Hq Hok Hpast.
  apply bytesToUint16_inv in Ha as [-> Ha], Hq as [-> Hq].
  unfold caseReadBits. rewrite Hp. read_fields. cbn [Z.eqb Pos.eqb negb].
  rewrite quantity_check_passes by exact Hok.
  rewrite pastLastAddress_spec by (trivial; lia).
  now replace (_ >? 0xffff) with true by (symmetry; lia).
Qed.

(** A read of bits that passes validation is what follows the handler's
    call. *)
Lemma caseReadBits_handler h req a1 a0 q1 q0 addr quantity :
  payload req = [a1; a0; q1; q0] ->
  bytesToUint16 [a1; a0] = Ret addr ->
  bytesToUint16 [q1; q0] = Ret quantity ->
  1 <= quantity <= 2000 ->
  addr + quantity - 1 <= 0xffff ->
  caseReadBits h req
  = let '(h', coils, err) :=
      if Byte.eqb (functionCode req) FC_READ_COILS
      then HandleCoils h (unitId req) addr quantity false []
      else HandleDiscreteInputs h (unitId req) addr quantity in
    if isNil err && negb (len coils =? quantity)
    then Ret (h', None, Some ErrServerDeviceFailure)
    else
      match err with
      | Some e => Ret (h', None, Some e)
      | None =>
          let count := byte_of_Z (Z.quot (len coils) 8) in
          let count :=
            if negb (Z.rem (len coils) 8 =? 0)
            then byte_of_Z (byte_to_Z count + 1) else count in
          Ret (h',
               Some {| unitId := unitId req;
                       functionCode := functionCode req;
                       payload := [count] ++ encodeBools coils |},
               None)
      end.
Proof.
  intros Hp Ha Hq Hok Hpast.
  apply bytesToUint16_inv in Ha as [-> Ha], Hq as [-> Hq].
  unfold caseReadBits. rewrite Hp. read_fields. cbn [Z.eqb Pos.eqb negb].
  rewrite quantity_check_passes by exact Hok.
  rewrite pastLastAddress_spec by (trivial; lia).
  now replace (_ >? 0xffff) with false by (symmetry; lia).
Qed.

Lemma caseReadRegisters_address h req a1 a0 q1 q0 addr quantity :
  payload req = [a1; a0; q1; q0] ->
  bytesToUint16 [a1; a0] = Ret addr ->
  bytesToUint16 [q1; q0] = Ret quantity ->
  1 <= quantity <= 0x7d ->
  addr + quantity - 1 > 0xffff ->
  caseReadRegisters h req = Ret (h, None, Some ErrIllegalDataAddress).
Proof.
  intros Hp Ha Hq Hok Hpast.
  apply bytesToUint16_inv in Ha as [-> Ha], Hq as [-> Hq].
  unfold caseReadRegisters. rewrite Hp. read_fields.
  cbn [Z.eqb Pos.eqb negb].
  rewrite quantity_check_passes by exact Hok.
  rewrite pastLastAddress_spec by (trivial; lia).
  now replace (_ >? 0xffff) with true by (symmetry; lia).
Qed.

Lemma caseReadRegisters_handler h req a1 a0 q1 q0 addr quantity :
  payload req = [a1; a0; q1; q0] ->
  bytesToUint16 [a1; a0] = Ret addr ->
  bytesToUint16 [q1; q0] = Ret quantity ->
  1 <= quantity <= 0x7d ->
  addr + quantity - 1 <= 0xffff ->
  caseReadRegisters h req
  = let '(h', regs, err) :=
      if Byte.eqb (functionCode req) FC_READ_HOLDING_REGISTERS
      then HandleHoldingRegisters h (unitId req) addr quantity false []
      else HandleInputRegisters h (unitId req) addr quantity in
    if isNil err && negb (len regs =? quantity)
    then Ret (h', None, Some ErrServerDeviceFailure)
    else
      match err with
      | Some e => Ret (h', None, Some e)
      | None =>
          Ret (h',
               Some {| unitId := unitId req;
                       functionCode := functionCode req;
                       payload := [byte_of_Z (len regs * 2)]
                                    ++ uint16sToBytes regs |},
               None)
      end.
Proof.
  intros Hp Ha Hq Hok Hpast.
  apply bytesToUint16_inv in Ha as [-> Ha], Hq as [-> Hq].
  unfold caseReadRegisters. rewrite Hp. read_fields.
  cbn [Z.eqb Pos.eqb negb].
  rewrite quantity_check_passes by exact Hok.
  rewrite pastLastAddress_spec by (trivial; lia).
  now replace (_ >? 0xffff) with false by (symmetry; lia).
Qed.

Lemma caseWriteMultipleCoils_address h req a1 a0 q1 q0 bc t0 tail
    addr quantity :
  payload req = a1 :: a0 :: q1 :: q0 :: bc :: t0 :: tail ->
  bytesToUint16 [a1; a0] = Ret addr ->
  bytesToUint16 [q1; q0] = Ret quantity ->
  1 <= quantity <= 0x7b0 ->
  addr + quantity - 1 > 0xffff ->
  caseWriteMultipleCoils h req = Ret (h, None, Some ErrIllegalDataAddress).
Proof.
  intros Hp Ha Hq Hok Hpast.
  apply bytesToUint16_inv in Ha as [-> Ha], Hq as [-> Hq].
  unfold caseWriteMultipleCoils. rewrite Hp. read_fields.
  pose proof (len_nonneg tail).
  replace (6 + len tail <? 6) with false by (symmetry; lia).
  rewrite quantity_check_passes by exact Hok.
  rewrite pastLastAddress_spec by (trivial; lia).
  now replace (_ >? 0xffff) with true by (symmetry; lia).
Qed.

Lemma caseWriteMultipleRegisters_address h req a1 a0 q1 q0 bc t0 tail
    addr quantity :
  payload req = a1 :: a0 :: q1 :: q0 :: bc :: t0 :: tail ->
  bytesToUint16 [a1; a0] = Ret addr ->
  bytesToUint16 [q1; q0] = Ret quantity ->
  1 <= quantity <= 0x7b ->
  addr + quantity - 1 > 0xffff ->
  caseWriteMultipleRegisters h req
  = Ret (h, None, Some ErrIllegalDataAddress).
Proof.
  intros Hp Ha Hq Hok Hpast.
  apply bytesToUint16_inv in Ha as [-> Ha], Hq as [-> Hq].
  unfold caseWriteMultipleRegisters. rewrite Hp. read_fields.
  pose proof (len_nonneg tail).
  replace (6 + len tail <? 6) with false by (symmetry; lia).
  rewrite quantity_check_passes by exact Hok.
  rewrite pastLastAddress_spec by (trivial; lia).
  now replace (_ >? 0xffff) with true by (symmetry; lia).
Qed.

End DispatcherFacts.

(** ** Responses of the dispatcher *)

Lemma byteCount_ceil (n : Z) :
  0 <= n <= 2000 ->
  (if negb (Z.rem n 8 =? 0)
   then byte_of_Z (byte_to_Z (byte_of_Z (Z.quot n 8)) + 1)
   else byte_of_Z (Z.quot n 8))
  = byte_of_Z ((n + 7) / 8)
  /\ byte_to_Z (byte_of_Z ((n + 7) / 8)) = (n + 7) / 8.
Proof.
  intros Hn. rewrite Z.quot_div_nonneg, Z.rem_mod_nonneg by lia.
  assert (Hd : 0 <= n / 8 < 251) by (Z.div_mod_to_equations; lia).
  rewrite byte_to_of_Z by lia.
  split.
  - destruct (Z.eqb_spec (n mod 8) 0) as [E|E]; cbn [negb]; f_equal;
      Z.div_mod_to_equations; lia.
  - apply byte_to_of_Z. Z.div_mod_to_equations; lia.
Qed.

Lemma encodeBools_len (inp : list bool) :
  len (encodeBools inp) = (len inp + 7) / 8.
Proof.
  unfold len. rewrite encodeBools_length, Nat2Z.inj_div, Nat2Z.inj_add.
  reflexivity.
Qed.

Section Responses.
Context {codes : ExceptionCodes} {H : Type} {handler : RequestHandler H}.

Implicit Types (h : H) (req : pdu) (rest : list pdu).

(** C3.  A Read Coils request with a quantity in [1,2000] and a last
    address within 0xFFFF, whose handler returns exactly [quantity]
    booleans and no error, is answered under the request's function code
    with one byte-count byte, ceil(quantity/8), followed by the packed
    bits: bit [i mod 8] of packed byte [i / 8] (least significant bit
    first) is the handler's boolean [i], so that unpacking the body gives
    the handler's booleans back in order. *)
Theorem read_coils_response h req a1 a0 q1 q0 addr quantity h' coils :
  functionCode req = FC_READ_COILS ->
  payload req = [a1; a0; q1; q0] ->
  bytesToUint16 [a1; a0] = Ret addr ->
  bytesToUint16 [q1; q0] = Ret quantity ->
  1 <= quantity <= 2000 ->
  addr + quantity - 1 <= 0xffff ->
  HandleCoils h (unitId req) addr quantity false [] = (h', coils, None) ->
  len coils = quantity ->
  serve h req
  = Ret (h',
         [WriteResponse
            (Some {| unitId := unitId req;
                     functionCode := functionCode req;
                     payload := byte_of_Z ((quantity + 7) / 8)
                                  :: encodeBools coils |})],
         true)
  /\ byte_to_Z (byte_of_Z ((quantity + 7) / 8)) = (quantity + 7) / 8
  /\ len (encodeBools coils) = (quantity + 7) / 8
  /\ (forall i : nat,
        (i < length coils)%nat ->
        Z.testbit (byte_to_Z (nth (i / 8) (encodeBools coils) x00))
                  (Z.of_nat (i mod 8))
        = nth i coils false)
  /\ decodeBools quantity (encodeBools coils) = Ret coils.
Proof.
  intros Hfc Hp Ha Hq Hok Hlast Hcall Hlen.
  destruct (byteCount_ceil (len coils)) as [Hcount Hfit]; [lia|].
  repeat split.
  - rewrite (serve_dispatched h req h'
               (Some {| unitId := unitId req;
                        functionCode := functionCode req;
                        payload := byte_of_Z ((quantity + 7) / 8)
                                     :: encodeBools coils |}) None);
      [reflexivity|].
    rewrite dispatch_read_bits by (now left).
    rewrite (caseReadBits_handler h req a1 a0 q1 q0 addr quantity)
      by assumption.
    rewrite Hfc, byte_eqb_refl, Hcall.
    rewrite Hlen, Z.eqb_refl. cbn [isNil negb andb].
    rewrite <- Hlen, Hcount. reflexivity.
  - now rewrite <- Hlen.
  - rewrite encodeBools_len. now rewrite Hlen.
  - intros i Hi. now apply encodeBools_bit.
  - rewrite <- Hlen. apply decodeBools_encodeBools.
Qed.

(** C4.  A Read Coils request whose decoded quantity is 0 or above 2000
    is a protocol error: the worker closes the transport and returns; it
    writes no response, does not call the handler and reads no further
    request. *)
Theorem read_coils_bad_quantity_closes h req rest a1 a0 q1 q0 quantity :
  functionCode req = FC_READ_COILS ->
  payload req = [a1; a0; q1; q0] ->
  bytesToUint16 [q1; q0] = Ret quantity ->
  quantity = 0 \/ quantity > 2000 ->
  handleTransport h (req :: rest) = Ret (h, [Close]).
Proof.
  intros Hfc Hp Hq Hbad.
  apply (handleTransport_return h req rest h [Close]).
  rewrite (serve_dispatched h req h None (Some ErrProtocolError));
    [reflexivity|].
  rewrite dispatch_read_bits by (now left).
  now apply (caseReadBits_quantity h req a1 a0 q1 q0 quantity).
Qed.

(** C5.  A read or write-multiple request whose quantity is within the
    range of its function and whose last address [addr+quantity-1] is
    beyond 0xFFFF is answered with an error response: function code
    [0x80 | fc], one payload byte, the illegal-data-address exception
    code.  The handler is not called and the worker goes on with the
    next request of the connection. *)
Theorem illegal_data_address_response
    h req rest a1 a0 q1 q0 tail addr quantity :
  payload req = a1 :: a0 :: q1 :: q0 :: tail ->
  bytesToUint16 [a1; a0] = Ret addr ->
  bytesToUint16 [q1; q0] = Ret quantity ->
  ((functionCode req = FC_READ_COILS
    \/ functionCode req = FC_READ_DISCRETE_INPUTS)
   /\ tail = [] /\ 1 <= quantity <= 2000)
  \/ ((functionCode req = FC_READ_HOLDING_REGISTERS
       \/ functionCode req = FC_READ_INPUT_REGISTERS)
      /\ tail = [] /\ 1 <= quantity <= 0x7d)
  \/ (functionCode req = FC_WRITE_MULTIPLE_COILS
      /\ 2 <= len tail /\ 1 <= quantity <= 0x7b0)
  \/ (functionCode req = FC_WRITE_MULTIPLE_REGISTERS
      /\ 2 <= len tail /\ 1 <= quantity <= 0x7b) ->
  addr + quantity - 1 > 0xffff ->
  handleTransport h (req :: rest)
  = (do '(h', evs) <- handleTransport h rest;
     Ret (h',
          WriteResponse
            (Some {| unitId := unitId req;
                     functionCode :=
                       byte_of_Z (Z.lor 0x80 (byte_to_Z (functionCode req)));
                     payload := [EX_ILLEGAL_DATA_ADDRESS] |})
          :: evs)).
Proof.
  intros Hp Ha Hq Hcase Hpast.
  assert (Hd : dispatch h req = Ret (h, None, Some ErrIllegalDataAddress)).
  { destruct Hcase as [(Hfc & -> & Hok)|[(Hfc & -> & Hok)
                      |[(Hfc & Hlen & Hok)|(Hfc & Hlen & Hok)]]].
    - rewrite dispatch_read_bits by exact Hfc.
      now apply (caseReadBits_address h req a1 a0 q1 q0 addr quantity).
    - rewrite dispatch_read_registers by exact Hfc.
      now apply (caseReadRegisters_address h req a1 a0 q1 q0 addr quantity).
    - rewrite dispatch_write_multiple_coils by exact Hfc.
      destruct tail as [|bc [|t0 tail]]; try (unfold len in Hlen;
        cbn [length] in Hlen; lia).
      now apply (caseWriteMultipleCoils_address
                   h req a1 a0 q1 q0 bc t0 tail addr quantity).
    - rewrite dispatch_write_multiple_registers by exact Hfc.
      destruct tail as [|bc [|t0 tail]]; try (unfold len in Hlen;
        cbn [length] in Hlen; lia).
      now apply (caseWriteMultipleRegisters_address
                   h req a1 a0 q1 q0 bc t0 tail addr quantity). }
  apply serve_dispatched in Hd.
  rewrite finish_error in Hd by discriminate.
  rewrite (handleTransport_continue h req rest _ _ Hd).
  reflexivity.
Qed.

(** C6.  A Write Single Coil request of four bytes whose value byte is
    neither 0x00 nor 0xFF, or whose last byte is not 0x00, is a protocol
    error: the worker closes the transport and returns without a
    response; the handler is not called, so its state is the one the
    worker started from. *)
Theorem write_single_coil_bad_value_closes h req rest a1 a0 v z :
  functionCode req = FC_WRITE_SINGLE_COIL ->
  payload req = [a1; a0; v; z] ->
  (v <> x00 /\ v <> xff) \/ z <> x00 ->
  handleTransport h (req :: rest) = Ret (h, [Close]).
Proof.
  intros Hfc Hp Hbad.
  apply (handleTransport_return h req rest h [Close]).
  rewrite (serve_dispatched h req h None (Some ErrProtocolError));
    [reflexivity|].
  rewrite dispatch_write_single_coil by exact Hfc.
  unfold caseWriteSingleCoil. rewrite Hp. read_fields.
  cbn [Z.eqb Pos.eqb negb].
  destruct (Byte.eqb v xff) eqn:Eff; destruct (Byte.eqb v x00) eqn:E00;
    cbn [negb andb]; try reflexivity; read_fields.
  - apply Byte.byte_dec_bl in Eff, E00. congruence.
  - destruct Hbad as [[_ Hv]|Hz].
    + apply Byte.byte_dec_bl in Eff. contradiction.
    + now rewrite (byte_eqb_neq z x00 Hz).
  - destruct Hbad as [[Hv _]|Hz].
    + apply Byte.byte_dec_bl in E00. contradiction.
    + now rewrite (byte_eqb_neq z x00 Hz).
Qed.

End Responses.

(** ** Handler results of the wrong length, handler errors *)

Section HandlerResults.
Context {codes : ExceptionCodes} {H : Type} {handler : RequestHandler H}.

Implicit Types (h : H) (req : pdu) (rest : list pdu).

(** What a read case leaves in [res] and [err] once the handler has
    returned an error, or no error and the wrong number of items. *)
Lemma read_dispatch_failure h req a1 a0 q1 q0 addr quantity h' n err :
  payload req = [a1; a0; q1; q0] ->
  bytesToUint16 [a1; a0] = Ret addr ->
  bytesToUint16 [q1; q0] = Ret quantity ->
  addr + quantity - 1 <= 0xffff ->
  (functionCode req = FC_READ_COILS /\ 1 <= quantity <= 2000
   /\ exists coils,
        HandleCoils h (unitId req) addr quantity false []
        = (h', coils, err) /\ len coils = n)
  \/ (functionCode req = FC_READ_DISCRETE_INPUTS /\ 1 <= quantity <= 2000
      /\ exists inputs,
           HandleDiscreteInputs h (unitId req) addr quantity
           = (h', inputs, err) /\ len inputs = n)
  \/ (functionCode req = FC_READ_HOLDING_REGISTERS /\ 1 <= quantity <= 0x7d
      /\ exists regs,
           HandleHoldingRegisters h (unitId req) addr quantity false []
           = (h', regs, err) /\ len regs = n)
  \/ (functionCode req = FC_READ_INPUT_REGISTERS /\ 1 <= quantity <= 0x7d
      /\ exists regs,
           HandleInputRegisters h (unitId req) addr quantity
           = (h', regs, err) /\ len regs = n) ->
  (err = None -> n <> quantity) ->
  dispatch h req
  = Ret (h', None,
         Some (match err with
               | Some e => e
               | None => ErrServerDeviceFailure
               end)).
Proof.
  intros Hp Ha Hq Hlast Hcase Hn.
  destruct Hcase as [(Hfc & Hok & res & Hcall & Hlen)
                    |[(Hfc & Hok & res & Hcall & Hlen)
                    |[(Hfc & Hok & res & Hcall & Hlen)
                     |(Hfc & Hok & res & Hcall & Hlen)]]].
  1,2: rewrite dispatch_read_bits by (rewrite Hfc; auto);
       rewrite (caseReadBits_handler h req a1 a0 q1 q0 addr quantity)
         by assumption.
  3,4: rewrite dispatch_read_registers by (rewrite Hfc; auto);
       rewrite (caseReadRegisters_handler h req a1 a0 q1 q0 addr quantity)
         by assumption.
  all: rewrite Hfc; cbv beta iota delta [Byte.eqb Byte.to_bits
         FC_READ_COILS FC_READ_DISCRETE_INPUTS FC_READ_HOLDING_REGISTERS
         FC_READ_INPUT_REGISTERS Bool.eqb andb]; rewrite Hcall, Hlen;
       destruct err as [e|]; cbn [isNil andb]; [reflexivity|];
       specialize (Hn eq_refl);
       now replace (n =? quantity) with false by (symmetry; lia).
Qed.

(** C7.  A read request (coils, discrete inputs, holding registers or
    input registers) that passes validation and whose handler returns no
    error and a result whose length is not the requested quantity is
    answered with an error response carrying the server-device-failure
    exception code; the handler's data is not sent and the worker goes on
    with the next request of the connection. *)
Theorem wrong_result_count_is_server_device_failure
    h req rest a1 a0 q1 q0 addr quantity h' :
  payload req = [a1; a0; q1; q0] ->
  bytesToUint16 [a1; a0] = Ret addr ->
  bytesToUint16 [q1; q0] = Ret quantity ->
  addr + quantity - 1 <= 0xffff ->
  (functionCode req = FC_READ_COILS /\ 1 <= quantity <= 2000
   /\ exists coils,
        HandleCoils h (unitId req) addr quantity false []
        = (h', coils, None) /\ len coils <> quantity)
  \/ (functionCode req = FC_READ_DISCRETE_INPUTS /\ 1 <= quantity <= 2000
      /\ exists inputs,
           HandleDiscreteInputs h (unitId req) addr quantity
           = (h', inputs, None) /\ len inputs <> quantity)
  \/ (functionCode req = FC_READ_HOLDING_REGISTERS /\ 1 <= quantity <= 0x7d
      /\ exists regs,
           HandleHoldingRegisters h (unitId req) addr quantity false []
           = (h', regs, None) /\ len regs <> quantity)
  \/ (functionCode req = FC_READ_INPUT_REGISTERS /\ 1 <= quantity <= 0x7d
      /\ exists regs,
           HandleInputRegisters h (unitId req) addr quantity
           = (h', regs, None) /\ len regs <> quantity) ->
  handleTransport h (req :: rest)
  = (do '(h'', evs) <- handleTransport h' rest;
     Ret (h'',
          WriteResponse
            (Some {| unitId := unitId req;
                     functionCode :=
                       byte_of_Z (Z.lor 0x80 (byte_to_Z (functionCode req)));
                     payload := [EX_SERVER_DEVICE_FAILURE] |})
          :: evs)).
Proof.
  intros Hp Ha Hq Hlast Hcase.
  assert (Hd : exists n, n <> quantity /\
                 dispatch h req = Ret (h', None, Some ErrServerDeviceFailure)).
  { destruct Hcase as [(Hfc & Hok & res & Hcall & Hlen)
                      |[(Hfc & Hok & res & Hcall & Hlen)
                      |[(Hfc & Hok & res & Hcall & Hlen)
                       |(Hfc & Hok & res & Hcall & Hlen)]]];
      exists (len res); (split; [exact Hlen|]);
      apply (read_dispatch_failure
               h req a1 a0 q1 q0 addr quantity h' (len res) None);
      try assumption; try (intros _; exact Hlen).
    - left. eauto.
    - right; left. eauto.
    - right; right; left. eauto.
    - right; right; right. eauto. }
  destruct Hd as (n & _ & Hd).
  apply serve_dispatched in Hd.
  rewrite finish_error in Hd by discriminate.
  rewrite (handleTransport_continue h req rest _ _ Hd).
  reflexivity.
Qed.

(** When the handler of a read request returns an error together with a
    result of the wrong length, the handler's error decides: the result
    count is checked only when the error is nil.  An error other than
    [ErrProtocolError] is answered with the exception code mapped from it,
    not with server-device-failure on account of the count, and the worker
    goes on; the tail of the iteration treats [ErrProtocolError] from the
    handler like a protocol error of the request. *)
Theorem handler_error_takes_precedence
    h req rest a1 a0 q1 q0 addr quantity h' e :
  payload req = [a1; a0; q1; q0] ->
  bytesToUint16 [a1; a0] = Ret addr ->
  bytesToUint16 [q1; q0] = Ret quantity ->
  addr + quantity - 1 <= 0xffff ->
  (functionCode req = FC_READ_COILS /\ 1 <= quantity <= 2000
   /\ exists coils,
        HandleCoils h (unitId req) addr quantity false []
        = (h', coils, Some e) /\ len coils <> quantity)
  \/ (functionCode req = FC_READ_DISCRETE_INPUTS /\ 1 <= quantity <= 2000
      /\ exists inputs,
           HandleDiscreteInputs h (unitId req) addr quantity
           = (h', inputs, Some e) /\ len inputs <> quantity)
  \/ (functionCode req = FC_READ_HOLDING_REGISTERS /\ 1 <= quantity <= 0x7d
      /\ exists regs,
           HandleHoldingRegisters h (unitId req) addr quantity false []
           = (h', regs, Some e) /\ len regs <> quantity)
  \/ (functionCode req = FC_READ_INPUT_REGISTERS /\ 1 <= quantity <= 0x7d
      /\ exists regs,
           HandleInputRegisters h (unitId req) addr quantity
           = (h', regs, Some e) /\ len regs <> quantity) ->
  (e <> ErrProtocolError ->
   handleTransport h (req :: rest)
   = (do '(h'', evs) <- handleTransport h' rest;
      Ret (h'',
           WriteResponse
             (Some {| unitId := unitId req;
                      functionCode :=
                        byte_of_Z
                          (Z.lor 0x80 (byte_to_Z (functionCode req)));
                      payload := [mapErrorToExceptionCode e] |})
           :: evs)))
  /\ (e = ErrProtocolError ->
      handleTransport h (req :: rest) = Ret (h', [Close])).
Proof.
  intros Hp Ha Hq Hlast Hcase.
  assert (Hd : dispatch h req = Ret (h', None, Some e)).
  { destruct Hcase as [(Hfc & Hok & res & Hcall & Hlen)
                      |[(Hfc & Hok & res & Hcall & Hlen)
                      |[(Hfc & Hok & res & Hcall & Hlen)
                       |(Hfc & Hok & res & Hcall & Hlen)]]];
      apply (read_dispatch_failure
               h req a1 a0 q1 q0 addr quantity h' (len res) (Some e));
      try assumption; try discriminate.
    - left. eauto.
    - right; left. eauto.
    - right; right; left. eauto.
    - right; right; right. eauto. }
  apply serve_dispatched in Hd.
  split.
  - intros Hne. rewrite finish_error in Hd by exact Hne.
    rewrite (handleTransport_continue h req rest _ _ Hd). reflexivity.
  - intros ->. rewrite finish_protocol_error in Hd.
    apply (handleTransport_return h req rest _ _ Hd).
Qed.

End HandlerResults.

(** ** Registers: the response body and its decoding *)

Section Registers.
Context {codes : ExceptionCodes} {H : Type} {handler : RequestHandler H}.

Implicit Types (h : H) (req : pdu).

(** C8.  The success response of Read Holding Registers carries the byte
    count [2*quantity] followed by the handler's values as big-endian
    16-bit words, and decoding that body gives the values back, for every
    list of [quantity] in [1,0x7D] registers; for the values [1,2,3] the
    payload is 06 00 01 00 02 00 03. *)
Theorem read_holding_registers_roundtrip
    h req a1 a0 q1 q0 addr quantity h' regs :
  functionCode req = FC_READ_HOLDING_REGISTERS ->
  payload req = [a1; a0; q1; q0] ->
  bytesToUint16 [a1; a0] = Ret addr ->
  bytesToUint16 [q1; q0] = Ret quantity ->
  1 <= quantity <= 0x7d ->
  addr + quantity - 1 <= 0xffff ->
  HandleHoldingRegisters h (unitId req) addr quantity false []
  = (h', regs, None) ->
  len regs = quantity ->
  Forall is_uint16 regs ->
  serve h req
  = Ret (h',
         [WriteResponse
            (Some {| unitId := unitId req;
                     functionCode := functionCode req;
                     payload := byte_of_Z (2 * quantity)
                                  :: uint16sToBytes regs |})],
         true)
  /\ byte_to_Z (byte_of_Z (2 * quantity)) = 2 * quantity
  /\ bytesToUint16s (uint16sToBytes regs) = Ret regs
  /\ (regs = [1; 2; 3] ->
      byte_of_Z (2 * quantity) :: uint16sToBytes regs
      = [x06; x00; x01; x00; x02; x00; x03]).
Proof.
  intros Hfc Hp Ha Hq Hok Hlast Hcall Hlen Hregs.
  repeat split.
  - rewrite (serve_dispatched h req h'
               (Some {| unitId := unitId req;
                        functionCode := functionCode req;
                        payload := byte_of_Z (2 * quantity)
                                     :: uint16sToBytes regs |}) None);
      [reflexivity|].
    rewrite dispatch_read_registers by (now left).
    rewrite (caseReadRegisters_handler h req a1 a0 q1 q0 addr quantity)
      by assumption.
    rewrite Hfc, byte_eqb_refl, Hcall.
    rewrite Hlen, Z.eqb_refl. cbn [isNil negb andb].
    now rewrite (Z.mul_comm quantity 2).
  - apply byte_to_of_Z. lia.
  - now apply uint16s_roundtrip.
  - intros ->. unfold len in Hlen. cbn [length] in Hlen. subst quantity.
    reflexivity.
Qed.

End Registers.

(** ** No access past the end of a payload *)

Section Totality.
Context {codes : ExceptionCodes} {H : Type} {handler : RequestHandler H}.

Implicit Types (h : H) (req : pdu).

Ltac returns_step :=
  match goal with
  | |- returns (Ret _) => eexists; reflexivity
  | |- returns (if ?b then _ else _) => destruct b eqn:?
  | |- context [HandleCoils ?h ?u ?a ?q ?w ?args] =>
      destruct (HandleCoils h u a q w args) as [[? ?] ?]
  | |- context [HandleDiscreteInputs ?h ?u ?a ?q] =>
      destruct (HandleDiscreteInputs h u a q) as [[? ?] ?]
  | |- context [HandleHoldingRegisters ?h ?u ?a ?q ?w ?args] =>
      destruct (HandleHoldingRegisters h u a q w args) as [[? ?] ?]
  | |- context [HandleInputRegisters ?h ?u ?a ?q] =>
      destruct (HandleInputRegisters h u a q) as [[? ?] ?]
  | |- returns (match ?x with Some _ => _ | None => _ end) => destruct x
  | |- context [if Byte.eqb ?a ?b then _ else _] => destruct (Byte.eqb a b)
  end.

Lemma caseReadBits_returns h req : returns (caseReadBits h req).
Proof.
  unfold caseReadBits.
  destruct (Z.eqb_spec (len (payload req)) 4) as [E|E]; cbn [negb];
    [|returns_step].
  apply payload_of_len_4 in E as (a & b & c & d & ->).
  read_fields. repeat returns_step.
Qed.

Lemma caseReadRegisters_returns h req : returns (caseReadRegisters h req).
Proof.
  unfold caseReadRegisters.
  destruct (Z.eqb_spec (len (payload req)) 4) as [E|E]; cbn [negb];
    [|returns_step].
  apply payload_of_len_4 in E as (a & b & c & d & ->).
  read_fields. repeat returns_step.
Qed.

Lemma caseWriteSingleCoil_returns h req :
  returns (caseWriteSingleCoil h req).
Proof.
  unfold caseWriteSingleCoil.
  destruct (Z.eqb_spec (len (payload req)) 4) as [E|E]; cbn [negb];
    [|returns_step].
  apply payload_of_len_4 in E as (a & b & c & d & ->).
  read_fields. returns_step; [returns_step|].
  read_fields. repeat returns_step.
Qed.

Lemma caseWriteSingleRegister_returns h req :
  returns (caseWriteSingleRegister h req).
Proof.
  unfold caseWriteSingleRegister.
  destruct (Z.eqb_spec (len (payload req)) 4) as [E|E]; cbn [negb];
    [|returns_step].
  apply payload_of_len_4 in E as (a & b & c & d & ->).
  read_fields. repeat returns_step.
Qed.

Lemma caseWriteMultipleCoils_returns h req :
  returns (caseWriteMultipleCoils h req).
Proof.
  unfold caseWriteMultipleCoils.
  destruct (Z.ltb_spec (len (payload req)) 6) as [E|E]; [returns_step|].
  apply payload_of_len_ge_6 in E as (a & b & c & d & e & f & t & ->).
  read_fields.
  set (quantity := 256 * byte_to_Z c + byte_to_Z d).
  assert (Hq : is_uint16 quantity) by apply bytesToUint16_range.
  do 2 (returns_step; [returns_step|]).
  returns_step; [returns_step|].
  destruct (Z.eqb_spec (6 + len t - 5)
              (if negb (quantity mod 8 =? 0)
               then Z.quot quantity 8 + 1 else Z.quot quantity 8))
    as [Elen|Elen]; cbn [negb]; [|returns_step].
  destruct (decodeBools_returns quantity (f :: t)) as [args Hargs].
  { unfold len in *. cbn [length]. destruct Hq as [Hq0 _].
    rewrite Z.quot_div_nonneg in Elen by lia.
    clearbody quantity. clear - Elen Hq0.
    destruct (Z.eqb_spec (quantity mod 8) 0); cbn [negb] in Elen;
      Z.div_mod_to_equations; lia. }
  rewrite Hargs. cbn [bind]. repeat returns_step.
Qed.

Lemma caseWriteMultipleRegisters_returns h req :
  returns (caseWriteMultipleRegisters h req).
Proof.
  unfold caseWriteMultipleRegisters.
  destruct (Z.ltb_spec (len (payload req)) 6) as [E|E]; [returns_step|].
  apply payload_of_len_ge_6 in E as (a & b & c & d & e & f & t & ->).
  read_fields.
  set (quantity := 256 * byte_to_Z c + byte_to_Z d).
  assert (Hq : is_uint16 quantity) by apply bytesToUint16_range.
  do 2 (returns_step; [returns_step|]).
  returns_step; [returns_step|].
  destruct (Z.eqb_spec (6 + len t - 5) (quantity * 2)) as [Elen|Elen];
    cbn [negb]; [|returns_step].
  destruct (bytesToUint16s_returns (f :: t) (Z.to_nat quantity))
    as [args Hargs].
  { unfold len in *. cbn [length]. destruct Hq as [Hq0 _]. lia. }
  rewrite Hargs. cbn [bind]. repeat returns_step.
Qed.

Lemma dispatch_returns h req : returns (dispatch h req).
Proof.
  unfold dispatch.
  repeat match goal with
         | |- returns (if ?b then _ else _) => destruct b
         end;
    auto using caseReadBits_returns, caseReadRegisters_returns,
      caseWriteSingleCoil_returns, caseWriteSingleRegister_returns,
      caseWriteMultipleCoils_returns, caseWriteMultipleRegisters_returns.
  eexists; reflexivity.
Qed.

Lemma serve_returns h req : returns (serve h req).
Proof.
  unfold serve. destruct (dispatch_returns h req) as [[[h' res] err] ->].
  cbn [bind]. destruct (finish req res err). eexists; reflexivity.
Qed.

(** C9.  Whatever the payload of a request, empty and short ones
    included, the dispatcher reads no byte past its end: with every index
    and slice expression checked against the length of the payload, the
    switch returns for every request, and so does the worker loop for
    every sequence of requests. *)
Theorem dispatcher_stays_inside_payload h :
  (forall req, returns (dispatch h req))
  /\ (forall reqs, returns (handleTransport h reqs)).
Proof.
  split; [intros req; apply dispatch_returns|].
  intros reqs. revert h.
  induction reqs as [|req rest IH]; intros h; [eexists; reflexivity|].
  cbn [handleTransport].
  destruct (serve_returns h req) as [[[h' evs] continue] ->]. cbn [bind].
  destruct continue; [|eexists; reflexivity].
  destruct (IH h') as [[h'' evs'] ->]. eexists; reflexivity.
Qed.

End Totality.

(** ** The server core *)

Lemma indexOf_lookup (clients : list conn) (sock : conn) (i : nat) :
  indexOf clients sock = Some i -> clients !! i = Some sock.
Proof.
  revert i. induction clients as [|c clients IH]; intros i; [discriminate|].
  cbn [indexOf]. destruct (Nat.eqb_spec c sock) as [->|Hne].
  - now intros [= <-].
  - destruct (indexOf clients sock) as [j|]; [|discriminate].
    intros [= <-]. now apply IH.
Qed.

Lemma indexOf_elem (clients : list conn) (sock : conn) :
  sock ∈ clients -> exists i, indexOf clients sock = Some i.
Proof.
  induction 1 as [c clients|c0 c clients _ [i IH]]; cbn [indexOf].
  - rewrite Nat.eqb_refl. now exists O.
  - destruct (_ =? _)%nat; [now exists O|].
    rewrite IH. now exists (S i).
Qed.

Lemma removeClient_length (clients : list conn) (sock : conn) :
  (length (removeClient clients sock) <= length clients)%nat.
Proof.
  unfold removeClient.
  destruct (indexOf clients sock) as [i|]; [|lia].
  destruct (clients !! (length clients - 1)%nat) as [lastClient|]; [|lia].
  rewrite length_take, length_insert. lia.
Qed.

(** Removing a connection that is in the slice takes one occurrence of it
    out and keeps the other entries. *)
Lemma removeClient_Permutation (clients : list conn) (sock : conn) :
  sock ∈ clients -> clients ≡ₚ sock :: removeClient clients sock.
Proof.
  intros Hin. destruct (indexOf_elem clients sock Hin) as [i Hi].
  unfold removeClient. rewrite Hi. apply indexOf_lookup in Hi.
  pose proof (lookup_lt_Some _ _ _ Hi) as Hlt.
  clear Hin. revert Hi Hlt.
  destruct clients as [|lastClient front _] using rev_ind; [discriminate|].
  intros Hi Hlt.
  rewrite length_app in *. cbn [length] in *.
  replace (length front + 1 - 1)%nat with (length front) by lia.
  rewrite (list_lookup_middle front [] lastClient (length front))
    by reflexivity.
  destruct (decide (i = length front)) as [->|Hne].
  - rewrite (list_lookup_middle front [] lastClient (length front)) in Hi
      by reflexivity.
    injection Hi as ->.
    rewrite list_insert_id
      by (now apply (list_lookup_middle front [] sock)).
    rewrite take_app_length. now rewrite Permutation_app_comm.
  - assert (Hi' : (i < length front)%nat) by lia.
    rewrite lookup_app_l in Hi by exact Hi'.
    rewrite insert_app_l by exact Hi'.
    rewrite <- (length_insert front i lastClient) at 1.
    rewrite take_app_length.
    rewrite insert_take_drop by exact Hi'.
    rewrite <- (take_drop_middle front i sock Hi) at 1.
    rewrite <- !app_assoc. cbn [app].
    rewrite <- !Permutation_middle.
    apply perm_skip. now rewrite app_nil_r.
Qed.

Lemma Start_fields (ms : server) (listenErr : option error) :
  conf (Start ms listenErr).1 = conf ms
  /\ tcpClients (Start ms listenErr).1 = tcpClients ms
  /\ transport (Start ms listenErr).1 = transport ms
  /\ (started (Start ms listenErr).1 = true ->
      started ms = true \/ transport ms = TCP_TRANSPORT).
Proof.
  unfold Start. destruct (started ms) eqn:Es; [auto|].
  destruct (transport ms) eqn:Et.
  - cbn. rewrite Es. repeat split; auto; discriminate.
  - destruct listenErr; cbn; rewrite ?Es; repeat split; auto.
Qed.

Lemma Stop_fields (ms : server) (closeErr : option error) :
  conf (Stop ms closeErr).1 = conf ms
  /\ tcpClients (Stop ms closeErr).1 = tcpClients ms
  /\ transport (Stop ms closeErr).1 = transport ms
  /\ (started (Stop ms closeErr).1 = true -> started ms = true).
Proof.
  unfold Stop. destruct (started ms) eqn:Es; cbn [negb].
  - destruct (transport ms); cbn; repeat split; auto.
  - cbn. rewrite Es. auto.
Qed.

Lemma NewServer_fields (c : ServerConfiguration) (ms : server) :
  NewServer c = (ms, None) ->
  tcpClients ms = [] /\ transport ms = TCP_TRANSPORT /\ started ms = false
  /\ MaxClients (conf ms)
     = (if (MaxClients c =? 0)%N then 10%N else MaxClients c).
Proof.
  unfold NewServer. destruct (String.prefix _ _); [|discriminate].
  intros [= <-]. cbn. auto.
Qed.

(** What every reachable state satisfies: the configuration is the one
    [NewServer] filled in, the slice holds at most [MaxClients]
    connections, and a started server listens over TCP. *)
Lemma reachable_invariant (c : ServerConfiguration) (ms : server) :
  reachable c ms ->
  conf ms = conf (NewServer c).1
  /\ (N.of_nat (length (tcpClients ms)) <= MaxClients (conf ms))%N
  /\ (started ms = true -> transport ms = TCP_TRANSPORT).
Proof.
  induction 1 as [ms Hnew|ms ms' _ (IHc & IHn & IHt) Hstep].
  - destruct (NewServer_fields c ms Hnew) as (Hl & Ht & Hs & _).
    rewrite Hnew, Hl. cbn. repeat split; auto. lia.
  - destruct Hstep as [ms listenErr|ms closeErr|ms sock
                      |ms d1 sock accepted d2 _|ms w1 sock w2 _
                      |ms w1 sock w2 _].
    + destruct (Start_fields ms listenErr) as (Hc & Hl & Ht & Hs).
      rewrite Hc, Hl, Ht. repeat split; auto.
      intros Hst. destruct (Hs Hst); auto.
    + destruct (Stop_fields ms closeErr) as (Hc & Hl & Ht & Hs).
      rewrite Hc, Hl, Ht. repeat split; auto.
    + unfold admission.
      destruct (N.ltb_spec (N.of_nat (length (tcpClients ms)))
                           (MaxClients (conf ms))) as [Hlt|Hge];
        cbn; repeat split; auto.
      rewrite length_app. cbn [length]. lia.
    + destruct accepted; cbn; auto.
    + cbn. repeat split; auto.
      pose proof (removeClient_length (tcpClients ms) sock). lia.
    + cbn. auto.
Qed.

(** C1, as the code has it.  When [Stop] returns on a started server, the
    server is no longer started, the listener has been closed and every
    connection that is in the active-connection set has been closed.
    [Stop] removes nothing from the set: [tcpClients] is after [Stop] what
    it was before, so it is empty when [Stop] returns only if it was empty
    already. *)
Theorem Stop_closes_listener_and_clients
    (c : ServerConfiguration) (ms : server) (closeErr : option error) :
  reachable c ms ->
  started ms = true ->
  started (Stop ms closeErr).1 = false
  /\ listening (Stop ms closeErr).1 = false
  /\ (forall sock, sock ∈ tcpClients ms -> sock ∈ closed (Stop ms closeErr).1)
  /\ tcpClients (Stop ms closeErr).1 = tcpClients ms
  /\ (tcpClients (Stop ms closeErr).1 = [] <-> tcpClients ms = []).
Proof.
  intros Hreach Hstarted.
  destruct (reachable_invariant c ms Hreach) as (_ & _ & Htcp).
  specialize (Htcp Hstarted).
  unfold Stop. rewrite Hstarted, Htcp. cbn.
  repeat split; auto.
  intros sock Hin. apply elem_of_union_r. now apply elem_of_list_to_set.
Qed.

(** C2.  In every reachable state the active-connection set holds at most
    [MaxClients] connections, [MaxClients] being the value [NewServer] put
    in the configuration.  The accept loop appends a connection only when
    the set holds fewer than [MaxClients]; otherwise it leaves the set as
    it is and closes the connection without starting a worker for it. *)
Theorem tcpClients_never_exceeds_MaxClients
    (c : ServerConfiguration) (ms : server) :
  reachable c ms ->
  MaxClients (conf ms) = MaxClients (conf (NewServer c).1)
  /\ (N.of_nat (length (tcpClients ms)) <= MaxClients (conf ms))%N
  /\ forall sock,
       ((N.of_nat (length (tcpClients ms)) < MaxClients (conf ms))%N ->
        tcpClients (admission ms sock) = tcpClients ms ++ [sock]
        /\ decided (admission ms sock) = decided ms ++ [(sock, true)]
        /\ serving (actOn (withDecided (admission ms sock) (decided ms)) sock true)
           = serving ms ++ [sock])
       /\ ((MaxClients (conf ms) <= N.of_nat (length (tcpClients ms)))%N ->
           tcpClients (admission ms sock) = tcpClients ms
           /\ decided (admission ms sock) = decided ms ++ [(sock, false)]
           /\ let ms' :=
                actOn (withDecided (admission ms sock) (decided ms)) sock false in
              tcpClients ms' = tcpClients ms
              /\ serving ms' = serving ms
              /\ sock ∈ closed ms').
Proof.
  intros Hreach.
  destruct (reachable_invariant c ms Hreach) as (Hc & Hn & _).
  split; [now rewrite Hc|]. split; [exact Hn|].
  intros sock. unfold admission.
  destruct (N.ltb_spec (N.of_nat (length (tcpClients ms)))
                       (MaxClients (conf ms))) as [Hlt|Hge].
  - split; [intros _; cbn; auto|lia].
  - split; [lia|]. intros _. cbn. repeat split; auto.
    apply elem_of_union_r. now apply elem_of_singleton.
Qed.

(** ** The model on concrete inputs *)

Lemma serverWithClient_reachable : reachable exampleConf serverWithClient.
Proof.
  unfold serverWithClient.
  apply (reachable_step exampleConf (admission listeningServer 7%nat)).
  - apply (reachable_step exampleConf listeningServer).
    + apply (reachable_step exampleConf (NewServer exampleConf).1).
      * now apply reachable_new.
      * apply step_Start.
    + apply step_admission.
  - now apply (step_actOn (admission listeningServer 7%nat) [] 7%nat true []).
Qed.

(** A started server with one connection in its set: when [Stop] returns,
    the connection is still in [tcpClients]. *)
Lemma Stop_leaves_clients_in_the_set :
  reachable exampleConf serverWithClient
  /\ started serverWithClient = true
  /\ tcpClients (Stop serverWithClient None).1 = [7%nat]
  /\ tcpClients (Stop serverWithClient None).1 <> [].
Proof.
  split; [exact serverWithClient_reachable|].
  split; [reflexivity|]. split; [reflexivity|discriminate].
Qed.

(** With [MaxClients = 2], of three connections that reach the critical
    section one after the other the first two enter the set and the third
    is turned away and closed. *)
Lemma third_connection_is_rejected :
  let ms := admission (admission (admission listeningServer 1%nat) 2%nat)
                      3%nat in
  MaxClients (conf ms) = 2%N
  /\ tcpClients ms = [1%nat; 2%nat]
  /\ decided ms = [(1%nat, true); (2%nat, true); (3%nat, false)]
  /\ 3%nat ∈ closed (actOn ms 3%nat false)
  /\ serving (actOn ms 3%nat false) = serving ms.
Proof.
  cbv zeta. split; [reflexivity|]. split; [reflexivity|].
  split; [reflexivity|]. split; [|reflexivity].
  cbn [actOn closed]. apply elem_of_union_r. now apply elem_of_singleton.
Qed.

Lemma Stop_closes_listener_and_clients_witness :
  started (Stop serverWithClient None).1 = false
  /\ listening (Stop serverWithClient None).1 = false
  /\ (forall sock,
        sock ∈ tcpClients serverWithClient ->
        sock ∈ closed (Stop serverWithClient None).1)
  /\ tcpClients (Stop serverWithClient None).1 = tcpClients serverWithClient
  /\ (tcpClients (Stop serverWithClient None).1 = []
      <-> tcpClients serverWithClient = []).
Proof.
  apply (Stop_closes_listener_and_clients exampleConf serverWithClient None).
  - exact serverWithClient_reachable.
  - reflexivity.
Defined.

Lemma tcpClients_never_exceeds_MaxClients_witness :
  MaxClients (conf serverWithClient) = 2%N
  /\ (N.of_nat (length (tcpClients serverWithClient)) <= 2)%N.
Proof.
  destruct (tcpClients_never_exceeds_MaxClients exampleConf serverWithClient
              serverWithClient_reachable) as (Hmax & Hle & _).
  split; [exact Hmax|exact Hle].
Defined.

Lemma read_coils_response_witness :
  @serve modbusCodes nat
    (scriptedHandler
       [true; false; true; true; false; false; true; false; true; true]
       [] None)
    0%nat
    {| unitId := x01; functionCode := FC_READ_COILS;
       payload := [x00; x13; x00; x0a] |}
  = Ret (1%nat,
         [WriteResponse
            (Some {| unitId := x01; functionCode := FC_READ_COILS;
                     payload := [x02; x4d; x03] |})],
         true).
Proof.
  apply (@read_coils_response modbusCodes nat
           (scriptedHandler
              [true; false; true; true; false; false; true; false; true; true]
              [] None)
           0%nat
           {| unitId := x01; functionCode := FC_READ_COILS;
              payload := [x00; x13; x00; x0a] |}
           x00 x13 x00 x0a 19 10 1%nat
           [true; false; true; true; false; false; true; false; true; true]);
    try reflexivity; lia.
Defined.

Lemma read_coils_bad_quantity_closes_witness :
  @handleTransport modbusCodes nat (scriptedHandler [true] [] None) 0%nat
    [ {| unitId := x01; functionCode := FC_READ_COILS;
         payload := [x00; x00; x07; xd1] |};
      readOneCoil ]
  = Ret (0%nat, [Close]).
Proof.
  apply (@read_coils_bad_quantity_closes modbusCodes nat
           (scriptedHandler [true] [] None) 0%nat _ _ x00 x00 x07 xd1 2001);
    try reflexivity; lia.
Defined.

Lemma illegal_data_address_response_witness :
  @handleTransport modbusCodes nat (scriptedHandler [] [] None) 0%nat
    [ {| unitId := x01; functionCode := FC_WRITE_MULTIPLE_REGISTERS;
         payload := [xff; xff; x00; x02; x04; x00; x01; x00; x02] |} ]
  = Ret (0%nat,
         [WriteResponse
            (Some {| unitId := x01; functionCode := x90;
                     payload := [x02] |})]).
Proof.
  apply (@illegal_data_address_response modbusCodes nat
           (scriptedHandler [] [] None) 0%nat
           {| unitId := x01; functionCode := FC_WRITE_MULTIPLE_REGISTERS;
              payload := [xff; xff; x00; x02; x04; x00; x01; x00; x02] |}
           [] xff xff x00 x02 [x04; x00; x01; x00; x02] 65535 2);
    try reflexivity; try lia.
  right; right; right. split; [reflexivity|]. unfold len. cbn [length]. lia.
Defined.

Lemma write_single_coil_bad_value_closes_witness :
  @handleTransport modbusCodes nat (scriptedHandler [] [] None) 0%nat
    [ {| unitId := x01; functionCode := FC_WRITE_SINGLE_COIL;
         payload := [x00; x05; x01; x00] |};
      readOneCoil ]
  = Ret (0%nat, [Close]).
Proof.
  apply (@write_single_coil_bad_value_closes modbusCodes nat
           (scriptedHandler [] [] None) 0%nat _ _ x00 x05 x01 x00);
    try reflexivity.
  left. split; discriminate.
Defined.

Lemma wrong_result_count_is_server_device_failure_witness :
  @handleTransport modbusCodes nat (scriptedHandler [true] [] None) 0%nat
    [ {| unitId := x01; functionCode := FC_READ_DISCRETE_INPUTS;
         payload := [x00; x00; x00; x02] |} ]
  = Ret (1%nat,
         [WriteResponse
            (Some {| unitId := x01; functionCode := x82;
                     payload := [x04] |})]).
Proof.
  apply (@wrong_result_count_is_server_device_failure modbusCodes nat
           (scriptedHandler [true] [] None) 0%nat
           {| unitId := x01; functionCode := FC_READ_DISCRETE_INPUTS;
              payload := [x00; x00; x00; x02] |}
           [] x00 x00 x00 x02 0 2 1%nat);
    try reflexivity; try lia.
  right; left. split; [reflexivity|]. split; [lia|].
  exists [true]. split; [reflexivity|]. unfold len. cbn [length]. lia.
Defined.

Lemma read_holding_registers_roundtrip_witness :
  @serve modbusCodes nat (scriptedHandler [] [1; 2; 3] None) 0%nat
    readThreeRegisters
  = Ret (1%nat,
         [WriteResponse
            (Some {| unitId := x01; functionCode := FC_READ_HOLDING_REGISTERS;
                     payload := [x06; x00; x01; x00; x02; x00; x03] |})],
         true)
  /\ bytesToUint16s [x00; x01; x00; x02; x00; x03] = Ret [1; 2; 3].
Proof.
  destruct (@read_holding_registers_roundtrip modbusCodes nat
              (scriptedHandler [] [1; 2; 3] None) 0%nat readThreeRegisters
              x00 x00 x00 x03 0 3 1%nat [1; 2; 3])
    as (Hserve & _ & Hdecode & _);
    try reflexivity; try lia.
  - repeat constructor; unfold is_uint16; lia.
  - split; [exact Hserve|exact Hdecode].
Defined.

(** C10, where the code departs from it.  The handler's error is to take
    precedence and be sent as its mapped exception code, and the comment of
    [HandleCoils] promises a negative response for every non-nil error.
    For a valid read of one coil whose handler returns [ErrProtocolError]
    and no boolean, the worker writes no exception response at all: it
    closes the link and leaves the second request unread. *)
Lemma handler_ErrProtocolError_sends_no_exception :
  @HandleCoils nat (scriptedHandler [] [] (Some ErrProtocolError))
    0%nat x01 0 1 false []
  = (1%nat, [], Some ErrProtocolError)
  /\ len ([] : list bool) <> 1
  /\ @handleTransport modbusCodes nat
       (scriptedHandler [] [] (Some ErrProtocolError)) 0%nat
       [readOneCoil; readOneCoil]
     = Ret (1%nat, [Close])
  /\ ~ (exists h res evs,
          @handleTransport modbusCodes nat
            (scriptedHandler [] [] (Some ErrProtocolError)) 0%nat
            [readOneCoil; readOneCoil]
          = Ret (h, WriteResponse res :: evs)).
Proof.
  repeat split; try discriminate.
  intros (h & res & evs & Hrun). discriminate Hrun.
Qed.

Lemma handler_error_takes_precedence_witness :
  @handleTransport modbusCodes nat
    (scriptedHandler [] [] (Some ErrIllegalDataValue)) 0%nat [readOneCoil]
  = Ret (1%nat,
         [WriteResponse
            (Some {| unitId := x01; functionCode := x81;
                     payload := [x03] |})]).
Proof.
  apply (@handler_error_takes_precedence modbusCodes nat
           (scriptedHandler [] [] (Some ErrIllegalDataValue)) 0%nat
           readOneCoil [] x00 x00 x00 x01 0 1 1%nat ErrIllegalDataValue);
    try reflexivity; try lia; try discriminate.
  left. split; [reflexivity|]. split; [lia|].
  exists []. split; [reflexivity|]. discriminate.
Defined.

(** * Further properties of the dispatcher *)

Lemma uint16ToBytes_of_bytes (hi lo : byte) :
  uint16ToBytes (256 * byte_to_Z hi + byte_to_Z lo) = [hi; lo].
Proof.
  pose proof (byte_to_Z_range hi) as Hhi.
  pose proof (byte_to_Z_range lo) as Hlo.
  rewrite uint16ToBytes_spec by apply bytesToUint16_range.
  replace ((256 * byte_to_Z hi + byte_to_Z lo) / 256) with (byte_to_Z hi)
    by (Z.div_mod_to_equations; lia).
  replace ((256 * byte_to_Z hi + byte_to_Z lo) mod 256) with (byte_to_Z lo)
    by (Z.div_mod_to_equations; lia).
  now rewrite !byte_of_to_Z.
Qed.

Section Validation.
Context {codes : ExceptionCodes} {H : Type} {handler : RequestHandler H}.

Implicit Types (h : H) (req : pdu) (rest : list pdu).

Lemma protocol_error_closes h req rest :
  dispatch h req = Ret (h, None, Some ErrProtocolError) ->
  handleTransport h (req :: rest) = Ret (h, [Close]).
Proof.
  intros Hd. apply serve_dispatched in Hd.
  apply (handleTransport_return h req rest _ _ Hd).
Qed.

(** X1.  A request whose function code is none of the eight the switch
    knows is answered with an error response, [0x80 | fc] and the
    illegal-function exception code, whatever its payload; the handler is
    not called and the worker goes on with the next request. *)
Theorem unknown_function_code_is_illegal_function h req rest :
  ~ In (functionCode req)
       [FC_READ_COILS; FC_READ_DISCRETE_INPUTS; FC_READ_HOLDING_REGISTERS;
        FC_READ_INPUT_REGISTERS; FC_WRITE_SINGLE_COIL;
        FC_WRITE_SINGLE_REGISTER; FC_WRITE_MULTIPLE_COILS;
        FC_WRITE_MULTIPLE_REGISTERS] ->
  handleTransport h (req :: rest)
  = (do '(h', evs) <- handleTransport h rest;
     Ret (h',
          WriteResponse
            (Some {| unitId := unitId req;
                     functionCode :=
                       byte_of_Z (Z.lor 0x80 (byte_to_Z (functionCode req)));
                     payload := [EX_ILLEGAL_FUNCTION] |})
          :: evs)).
Proof.
  intros Hfc.
  assert (Hd : dispatch h req = caseDefault h req).
  { unfold dispatch.
    rewrite !byte_eqb_neq; [reflexivity|..];
      intros E; apply Hfc; rewrite E; cbn [In]; tauto. }
  unfold caseDefault in Hd. apply serve_dispatched in Hd.
  rewrite (handleTransport_continue h req rest _ _ Hd). reflexivity.
Qed.

(** X2.  A request of a function with a fixed four-byte payload (the four
    reads and the two single writes) whose payload is not four bytes long,
    and a multiple write whose payload is shorter than six bytes, is a
    protocol error: the worker closes the transport and returns without a
    response and without calling the handler. *)
Theorem wrong_payload_length_closes h req rest :
  (In (functionCode req)
      [FC_READ_COILS; FC_READ_DISCRETE_INPUTS; FC_READ_HOLDING_REGISTERS;
       FC_READ_INPUT_REGISTERS; FC_WRITE_SINGLE_COIL;
       FC_WRITE_SINGLE_REGISTER]
   /\ len (payload req) <> 4)
  \/ (In (functionCode req)
         [FC_WRITE_MULTIPLE_COILS; FC_WRITE_MULTIPLE_REGISTERS]
      /\ len (payload req) < 6) ->
  handleTransport h (req :: rest) = Ret (h, [Close]).
Proof.
  intros Hcase. apply protocol_error_closes.
  assert (Hne : len (payload req) <> 4 ->
                negb (len (payload req) =? 4) = true)
    by (intros; apply negb_true_iff; lia).
  assert (Hlt : len (payload req) < 6 -> (len (payload req) <? 6) = true)
    by (intros; lia).
  unfold dispatch.
  destruct Hcase as [[Hfc Hlen]|[Hfc Hlen]]; cbn [In] in Hfc;
    repeat (destruct Hfc as [<-|Hfc]; [|]); try contradiction;
    cbv beta iota zeta delta
      [Byte.eqb Byte.to_bits Bool.eqb andb orb FC_READ_COILS
       FC_READ_DISCRETE_INPUTS FC_READ_HOLDING_REGISTERS
       FC_READ_INPUT_REGISTERS FC_WRITE_SINGLE_COIL FC_WRITE_SINGLE_REGISTER
       FC_WRITE_MULTIPLE_COILS FC_WRITE_MULTIPLE_REGISTERS];
    unfold caseReadBits, caseReadRegisters, caseWriteSingleCoil,
      caseWriteSingleRegister, caseWriteMultipleCoils,
      caseWriteMultipleRegisters;
    rewrite ?(Hne Hlen), ?(Hlt Hlen); reflexivity.
Qed.

(** X3.  A request whose decoded quantity is 0 or above the limit of its
    function (2000 for Read Discrete Inputs, 0x7D for the register reads,
    0x7B0 for Write Multiple Coils, 0x7B for Write Multiple Registers) is a
    protocol error: the link is closed, nothing is written and the handler
    is not called. *)
Theorem quantity_out_of_range_closes
    h req rest a1 a0 q1 q0 tail quantity :
  payload req = a1 :: a0 :: q1 :: q0 :: tail ->
  bytesToUint16 [q1; q0] = Ret quantity ->
  (functionCode req = FC_READ_DISCRETE_INPUTS /\ tail = []
   /\ (quantity = 0 \/ quantity > 2000))
  \/ ((functionCode req = FC_READ_HOLDING_REGISTERS
       \/ functionCode req = FC_READ_INPUT_REGISTERS) /\ tail = []
      /\ (quantity = 0 \/ quantity > 0x7d))
  \/ (functionCode req = FC_WRITE_MULTIPLE_COILS /\ 2 <= len tail
      /\ (quantity = 0 \/ quantity > 0x7b0))
  \/ (functionCode req = FC_WRITE_MULTIPLE_REGISTERS /\ 2 <= len tail
      /\ (quantity = 0 \/ quantity > 0x7b)) ->
  handleTransport h (req :: rest) = Ret (h, [Close]).
Proof.
  intros Hp Hq Hcase. apply protocol_error_closes.
  apply bytesToUint16_inv in Hq as [-> _].
  destruct Hcase as [(Hfc & -> & Hbad)|[(Hfc & -> & Hbad)
                    |[(Hfc & Hlen & Hbad)|(Hfc & Hlen & Hbad)]]].
  - rewrite dispatch_read_bits by (now right).
    unfold caseReadBits. rewrite Hp. read_fields. cbn [Z.eqb Pos.eqb negb].
    now rewrite quantity_check_fails.
  - rewrite dispatch_read_registers by exact Hfc.
    unfold caseReadRegisters. rewrite Hp. read_fields.
    cbn [Z.eqb Pos.eqb negb]. now rewrite quantity_check_fails.
  - rewrite dispatch_write_multiple_coils by exact Hfc.
    destruct tail as [|bc [|t0 tail]];
      try (unfold len in Hlen; cbn [length] in Hlen; lia).
    unfold caseWriteMultipleCoils. rewrite Hp. read_fields.
    pose proof (len_nonneg tail).
    replace (6 + len tail <? 6) with false by (symmetry; lia).
    now rewrite quantity_check_fails.
  - rewrite dispatch_write_multiple_registers by exact Hfc.
    destruct tail as [|bc [|t0 tail]];
      try (unfold len in Hlen; cbn [length] in Hlen; lia).
    unfold caseWriteMultipleRegisters. rewrite Hp. read_fields.
    pose proof (len_nonneg tail).
    replace (6 + len tail <? 6) with false by (symmetry; lia).
    now rewrite quantity_check_fails.
Qed.

End Validation.

(** ** Writes *)

Lemma expectedLen_ceil (quantity : Z) :
  0 <= quantity ->
  (if negb (quantity mod 8 =? 0)
   then Z.quot quantity 8 + 1 else Z.quot quantity 8)
  = (quantity + 7) / 8.
Proof.
  intros Hq. rewrite Z.quot_div_nonneg by lia.
  destruct (Z.eqb_spec (quantity mod 8) 0); cbn [negb];
    Z.div_mod_to_equations; lia.
Qed.

Section Writes.
Context {codes : ExceptionCodes} {H : Type} {handler : RequestHandler H}.

Implicit Types (h : H) (req : pdu) (rest : list pdu).

(** A Write Multiple Coils request whose quantity and address are in range
    is what follows the two checks of its byte count. *)
Lemma caseWriteMultipleCoils_validated
    h req a1 a0 q1 q0 bc tail addr quantity :
  payload req = a1 :: a0 :: q1 :: q0 :: bc :: tail ->
  bytesToUint16 [a1; a0] = Ret addr ->
  bytesToUint16 [q1; q0] = Ret quantity ->
  1 <= quantity <= 0x7b0 ->
  addr + quantity - 1 <= 0xffff ->
  1 <= len tail ->
  caseWriteMultipleCoils h req
  = if negb (Byte.eqb bc (byte_of_Z ((quantity + 7) / 8)))
    then Ret (h, None, Some ErrProtocolError)
    else if negb (len tail =? (quantity + 7) / 8)
    then Ret (h, None, Some ErrProtocolError)
    else
      do args <- decodeBools quantity tail;
      let '(h', _, err) :=
        HandleCoils h (unitId req) addr quantity true args in
      match err with
      | Some e => Ret (h', None, Some e)
      | None =>
          Ret (h',
               Some {| unitId := unitId req;
                       functionCode := functionCode req;
                       payload := [a1; a0; q1; q0] |},
               None)
      end.
Proof.
  intros Hp Ha Hq Hok Hlast Hlen.
  apply bytesToUint16_inv in Ha as [-> Ha], Hq as [-> Hq].
  destruct tail as [|t0 tail]; [unfold len in Hlen; cbn [length] in Hlen; lia|].
  unfold caseWriteMultipleCoils. rewrite Hp. read_fields.
  pose proof (len_nonneg tail).
  replace (6 + len tail <? 6) with false by (symmetry; lia).
  rewrite quantity_check_passes by exact Hok.
  rewrite pastLastAddress_spec by (trivial; lia).
  replace (_ >? 0xffff) with false by (symmetry; lia).
  rewrite expectedLen_ceil by lia.
  replace (6 + len tail - 5) with (len (t0 :: tail))
    by (unfold len; cbn [length]; lia).
  now rewrite !uint16ToBytes_of_bytes.
Qed.

Lemma caseWriteMultipleRegisters_validated
    h req a1 a0 q1 q0 bc tail addr quantity :
  payload req = a1 :: a0 :: q1 :: q0 :: bc :: tail ->
  bytesToUint16 [a1; a0] = Ret addr ->
  bytesToUint16 [q1; q0] = Ret quantity ->
  1 <= quantity <= 0x7b ->
  addr + quantity - 1 <= 0xffff ->
  1 <= len tail ->
  caseWriteMultipleRegisters h req
  = if negb (Byte.eqb bc (byte_of_Z (quantity * 2)))
    then Ret (h, None, Some ErrProtocolError)
    else if negb (len tail =? quantity * 2)
    then Ret (h, None, Some ErrProtocolError)
    else
      do args <- bytesToUint16s tail;
      let '(h', _, err) :=
        HandleHoldingRegisters h (unitId req) addr quantity true args in
      match err with
      | Some e => Ret (h', None, Some e)
      | None =>
          Ret (h',
               Some {| unitId := unitId req;
                       functionCode := functionCode req;
                       payload := [a1; a0; q1; q0] |},
               None)
      end.
Proof.
  intros Hp Ha Hq Hok Hlast Hlen.
  apply bytesToUint16_inv in Ha as [-> Ha], Hq as [-> Hq].
  destruct tail as [|t0 tail]; [unfold len in Hlen; cbn [length] in Hlen; lia|].
  unfold caseWriteMultipleRegisters. rewrite Hp. read_fields.
  pose proof (len_nonneg tail).
  replace (6 + len tail <? 6) with false by (symmetry; lia).
  rewrite quantity_check_passes by exact Hok.
  rewrite pastLastAddress_spec by (trivial; lia).
  replace (_ >? 0xffff) with false by (symmetry; lia).
  replace (6 + len tail - 5) with (len (t0 :: tail))
    by (unfold len; cbn [length]; lia).
  now rewrite !uint16ToBytes_of_bytes.
Qed.

(** X4.  A multiple write whose byte-count field is not the count its
    quantity calls for (ceil(quantity/8) for coils, 2*quantity for
    registers), or whose data is not that many bytes long, is a protocol
    error even though quantity and address are valid: the link is closed,
    nothing is written and the handler is not called. *)
Theorem byte_count_mismatch_closes
    h req rest a1 a0 q1 q0 bc tail addr quantity expected :
  payload req = a1 :: a0 :: q1 :: q0 :: bc :: tail ->
  bytesToUint16 [a1; a0] = Ret addr ->
  bytesToUint16 [q1; q0] = Ret quantity ->
  addr + quantity - 1 <= 0xffff ->
  1 <= len tail ->
  (functionCode req = FC_WRITE_MULTIPLE_COILS /\ 1 <= quantity <= 0x7b0
   /\ expected = (quantity + 7) / 8)
  \/ (functionCode req = FC_WRITE_MULTIPLE_REGISTERS /\ 1 <= quantity <= 0x7b
      /\ expected = quantity * 2) ->
  bc <> byte_of_Z expected \/ len tail <> expected ->
  handleTransport h (req :: rest) = Ret (h, [Close]).
Proof.
  intros Hp Ha Hq Hlast Hlen Hcase Hbad. apply protocol_error_closes.
  destruct Hcase as [(Hfc & Hok & ->)|(Hfc & Hok & ->)].
  - rewrite dispatch_write_multiple_coils by exact Hfc.
    rewrite (caseWriteMultipleCoils_validated
               h req a1 a0 q1 q0 bc tail addr quantity) by assumption.
    destruct Hbad as [Hbc|Htail].
    + now rewrite byte_eqb_neq.
    + destruct (Byte.eqb bc _); cbn [negb]; [|reflexivity].
      now replace (len tail =? _) with false by (symmetry; lia).
  - rewrite dispatch_write_multiple_registers by exact Hfc.
    rewrite (caseWriteMultipleRegisters_validated
               h req a1 a0 q1 q0 bc tail addr quantity) by assumption.
    destruct Hbad as [Hbc|Htail].
    + now rewrite byte_eqb_neq.
    + destruct (Byte.eqb bc _); cbn [negb]; [|reflexivity].
      now replace (len tail =? _) with false by (symmetry; lia).
Qed.

(** X5.  A valid Write Multiple Coils request hands the handler the
    unpacked data of the request, [quantity] booleans, as a write, and on
    success is answered with the address and quantity fields of the
    request (its first four bytes) under the same function code. *)
Theorem write_multiple_coils_response
    h req a1 a0 q1 q0 bc tail addr quantity args h' res :
  functionCode req = FC_WRITE_MULTIPLE_COILS ->
  payload req = a1 :: a0 :: q1 :: q0 :: bc :: tail ->
  bytesToUint16 [a1; a0] = Ret addr ->
  bytesToUint16 [q1; q0] = Ret quantity ->
  1 <= quantity <= 0x7b0 ->
  addr + quantity - 1 <= 0xffff ->
  bc = byte_of_Z ((quantity + 7) / 8) ->
  len tail = (quantity + 7) / 8 ->
  decodeBools quantity tail = Ret args ->
  HandleCoils h (unitId req) addr quantity true args = (h', res, None) ->
  serve h req
  = Ret (h',
         [WriteResponse
            (Some {| unitId := unitId req;
                     functionCode := functionCode req;
                     payload := [a1; a0; q1; q0] |})],
         true).
Proof.
  intros Hfc Hp Ha Hq Hok Hlast Hbc Htail Hargs Hcall.
  rewrite (serve_dispatched h req h'
             (Some {| unitId := unitId req;
                      functionCode := functionCode req;
                      payload := [a1; a0; q1; q0] |}) None);
    [reflexivity|].
  rewrite dispatch_write_multiple_coils by exact Hfc.
  rewrite (caseWriteMultipleCoils_validated
             h req a1 a0 q1 q0 bc tail addr quantity)
    by (try assumption; Z.div_mod_to_equations; lia).
  rewrite Hbc, byte_eqb_refl, Htail, Z.eqb_refl. cbn [negb].
  rewrite Hargs. cbn [bind]. now rewrite Hcall.
Qed.

(** X6.  A valid Write Multiple Registers request hands the handler the
    16-bit values of its data, as a write, and on success is answered with
    the address and quantity fields of the request under the same function
    code. *)
Theorem write_multiple_registers_response
    h req a1 a0 q1 q0 bc tail addr quantity args h' res :
  functionCode req = FC_WRITE_MULTIPLE_REGISTERS ->
  payload req = a1 :: a0 :: q1 :: q0 :: bc :: tail ->
  bytesToUint16 [a1; a0] = Ret addr ->
  bytesToUint16 [q1; q0] = Ret quantity ->
  1 <= quantity <= 0x7b ->
  addr + quantity - 1 <= 0xffff ->
  bc = byte_of_Z (quantity * 2) ->
  len tail = quantity * 2 ->
  bytesToUint16s tail = Ret args ->
  HandleHoldingRegisters h (unitId req) addr quantity true args
  = (h', res, None) ->
  serve h req
  = Ret (h',
         [WriteResponse
            (Some {| unitId := unitId req;
                     functionCode := functionCode req;
                     payload := [a1; a0; q1; q0] |})],
         true).
Proof.
  intros Hfc Hp Ha Hq Hok Hlast Hbc Htail Hargs Hcall.
  rewrite (serve_dispatched h req h'
             (Some {| unitId := unitId req;
                      functionCode := functionCode req;
                      payload := [a1; a0; q1; q0] |}) None);
    [reflexivity|].
  rewrite dispatch_write_multiple_registers by exact Hfc.
  rewrite (caseWriteMultipleRegisters_validated
             h req a1 a0 q1 q0 bc tail addr quantity)
    by (try assumption; lia).
  rewrite Hbc, byte_eqb_refl, Htail, Z.eqb_refl. cbn [negb].
  rewrite Hargs. cbn [bind]. now rewrite Hcall.
Qed.

(** A four-byte Write Single Coil or Write Single Register request, once
    validated, is the call of its handler; the response echoes the
    request. *)
Lemma caseWriteSingleCoil_validated h req a1 a0 v addr :
  payload req = [a1; a0; v; x00] ->
  bytesToUint16 [a1; a0] = Ret addr ->
  v = x00 \/ v = xff ->
  caseWriteSingleCoil h req
  = let '(h', _, err) :=
      HandleCoils h (unitId req) addr 1 true [Byte.eqb v xff] in
    match err with
    | Some e => Ret (h', None, Some e)
    | None =>
        Ret (h',
             Some {| unitId := unitId req;
                     functionCode := functionCode req;
                     payload := [a1; a0; v; x00] |},
             None)
    end.
Proof.
  intros Hp Ha Hv. apply bytesToUint16_inv in Ha as [-> Ha].
  unfold caseWriteSingleCoil. rewrite Hp. read_fields.
  cbn [Z.eqb Pos.eqb negb].
  replace (negb (Byte.eqb v xff) && negb (Byte.eqb v x00)) with false
    by (destruct Hv as [->| ->]; reflexivity).
  read_fields. rewrite byte_eqb_refl. cbn [negb].
  now rewrite uint16ToBytes_of_bytes.
Qed.

Lemma caseWriteSingleRegister_validated h req a1 a0 v1 v0 addr value :
  payload req = [a1; a0; v1; v0] ->
  bytesToUint16 [a1; a0] = Ret addr ->
  bytesToUint16 [v1; v0] = Ret value ->
  caseWriteSingleRegister h req
  = let '(h', _, err) :=
      HandleHoldingRegisters h (unitId req) addr 1 true [value] in
    match err with
    | Some e => Ret (h', None, Some e)
    | None =>
        Ret (h',
             Some {| unitId := unitId req;
                     functionCode := functionCode req;
                     payload := [a1; a0; v1; v0] |},
             None)
    end.
Proof.
  intros Hp Ha Hv.
  apply bytesToUint16_inv in Ha as [-> Ha], Hv as [-> Hv].
  unfold caseWriteSingleRegister. rewrite Hp. read_fields.
  cbn [Z.eqb Pos.eqb negb]. now rewrite !uint16ToBytes_of_bytes.
Qed.

(** X7.  A Write Single Coil request with value bytes FF 00 or 00 00 calls
    the coil handler as a write of one coil, [true] for FF and [false] for
    00, and on success the response is the request itself: same unit, same
    function code, same four payload bytes. *)
Theorem write_single_coil_echoes_request h req a1 a0 v addr h' res :
  functionCode req = FC_WRITE_SINGLE_COIL ->
  payload req = [a1; a0; v; x00] ->
  bytesToUint16 [a1; a0] = Ret addr ->
  v = x00 \/ v = xff ->
  HandleCoils h (unitId req) addr 1 true [Byte.eqb v xff] = (h', res, None) ->
  serve h req = Ret (h', [WriteResponse (Some req)], true)
  /\ (Byte.eqb v xff = true <-> v = xff).
Proof.
  intros Hfc Hp Ha Hv Hcall. split.
  - rewrite (serve_dispatched h req h' (Some req) None); [reflexivity|].
    rewrite dispatch_write_single_coil by exact Hfc.
    rewrite (caseWriteSingleCoil_validated h req a1 a0 v addr)
      by assumption.
    rewrite Hcall, <- Hp. now destruct req.
  - split; [apply Byte.byte_dec_bl|apply Byte.byte_dec_lb].
Qed.

(** X8.  A four-byte Write Single Register request is never rejected by
    the server itself: the handler is called as a write of one register
    with the decoded value, and on success the response is the request
    itself. *)
Theorem write_single_register_echoes_request
    h req a1 a0 v1 v0 addr value h' res :
  functionCode req = FC_WRITE_SINGLE_REGISTER ->
  payload req = [a1; a0; v1; v0] ->
  bytesToUint16 [a1; a0] = Ret addr ->
  bytesToUint16 [v1; v0] = Ret value ->
  HandleHoldingRegisters h (unitId req) addr 1 true [value]
  = (h', res, None) ->
  serve h req = Ret (h', [WriteResponse (Some req)], true).
Proof.
  intros Hfc Hp Ha Hv Hcall.
  rewrite (serve_dispatched h req h' (Some req) None); [reflexivity|].
  unfold dispatch. rewrite Hfc.
  change (caseWriteSingleRegister h req = Ret (h', Some req, None)).
  rewrite (caseWriteSingleRegister_validated h req a1 a0 v1 v0 addr value)
    by assumption.
  rewrite Hcall, <- Hp. now destruct req.
Qed.

(** X9.  When the handler refuses a single write with an error other than
    [ErrProtocolError], the request is answered with [0x80 | fc] and the
    exception code mapped from that error, and the worker goes on with the
    next request. *)
Theorem failed_single_write_is_reported
    h req rest a1 a0 v1 v0 addr h' res e :
  payload req = [a1; a0; v1; v0] ->
  bytesToUint16 [a1; a0] = Ret addr ->
  (functionCode req = FC_WRITE_SINGLE_COIL /\ v0 = x00
   /\ (v1 = x00 \/ v1 = xff)
   /\ HandleCoils h (unitId req) addr 1 true [Byte.eqb v1 xff]
      = (h', res, Some e))
  \/ (functionCode req = FC_WRITE_SINGLE_REGISTER
      /\ exists value regs,
           bytesToUint16 [v1; v0] = Ret value
           /\ HandleHoldingRegisters h (unitId req) addr 1 true [value]
              = (h', regs, Some e)) ->
  e <> ErrProtocolError ->
  handleTransport h (req :: rest)
  = (do '(h'', evs) <- handleTransport h' rest;
     Ret (h'',
          WriteResponse
            (Some {| unitId := unitId req;
                     functionCode :=
                       byte_of_Z (Z.lor 0x80 (byte_to_Z (functionCode req)));
                     payload := [mapErrorToExceptionCode e] |})
          :: evs)).
Proof.
  intros Hp Ha Hcase Hne.
  assert (Hd : dispatch h req = Ret (h', None, Some e)).
  { destruct Hcase as [(Hfc & -> & Hv & Hcall)
                      |(Hfc & value & regs & Hv & Hcall)].
    - rewrite dispatch_write_single_coil by exact Hfc.
      rewrite (caseWriteSingleCoil_validated h req a1 a0 v1 addr)
        by assumption.
      now rewrite Hcall.
    - unfold dispatch. rewrite Hfc.
      change (caseWriteSingleRegister h req = Ret (h', None, Some e)).
      rewrite (caseWriteSingleRegister_validated
                 h req a1 a0 v1 v0 addr value) by assumption.
      now rewrite Hcall. }
  apply serve_dispatched in Hd.
  rewrite finish_error in Hd by exact Hne.
  rewrite (handleTransport_continue h req rest _ _ Hd). reflexivity.
Qed.

End Writes.

(** ** The read-only functions *)

Section ReadOnly.
Context {codes : ExceptionCodes} {H : Type} {handler : RequestHandler H}.

Implicit Types (h : H) (req : pdu).

(** X10.  Read Discrete Inputs is served by [HandleDiscreteInputs], not by
    the coil handler: a valid request whose handler returns [quantity]
    booleans and no error is answered with the byte count ceil(quantity/8)
    and the packed booleans of that handler. *)
Theorem read_discrete_inputs_response
    h req a1 a0 q1 q0 addr quantity h' inputs :
  functionCode req = FC_READ_DISCRETE_INPUTS ->
  payload req = [a1; a0; q1; q0] ->
  bytesToUint16 [a1; a0] = Ret addr ->
  bytesToUint16 [q1; q0] = Ret quantity ->
  1 <= quantity <= 2000 ->
  addr + quantity - 1 <= 0xffff ->
  HandleDiscreteInputs h (unitId req) addr quantity = (h', inputs, None) ->
  len inputs = quantity ->
  serve h req
  = Ret (h',
         [WriteResponse
            (Some {| unitId := unitId req;
                     functionCode := functionCode req;
                     payload := byte_of_Z ((quantity + 7) / 8)
                                  :: encodeBools inputs |})],
         true).
Proof.
  intros Hfc Hp Ha Hq Hok Hlast Hcall Hlen.
  destruct (byteCount_ceil (len inputs)) as [Hcount _]; [lia|].
  rewrite (serve_dispatched h req h'
             (Some {| unitId := unitId req;
                      functionCode := functionCode req;
                      payload := byte_of_Z ((quantity + 7) / 8)
                                   :: encodeBools inputs |}) None);
    [reflexivity|].
  rewrite dispatch_read_bits by (now right).
  rewrite (caseReadBits_handler h req a1 a0 q1 q0 addr quantity)
    by assumption.
  rewrite Hfc.
  change (Byte.eqb FC_READ_DISCRETE_INPUTS FC_READ_COILS) with false.
  cbv iota. rewrite Hcall, Hlen, Z.eqb_refl. cbn [isNil negb andb].
  rewrite <- Hlen, Hcount. reflexivity.
Qed.

(** X11.  Read Input Registers is served by [HandleInputRegisters], not by
    the holding-register handler: a valid request whose handler returns
    [quantity] values and no error is answered with the byte count
    [2*quantity] and the values of that handler as big-endian words. *)
Theorem read_input_registers_response
    h req a1 a0 q1 q0 addr quantity h' regs :
  functionCode req = FC_READ_INPUT_REGISTERS ->
  payload req = [a1; a0; q1; q0] ->
  bytesToUint16 [a1; a0] = Ret addr ->
  bytesToUint16 [q1; q0] = Ret quantity ->
  1 <= quantity <= 0x7d ->
  addr + quantity - 1 <= 0xffff ->
  HandleInputRegisters h (unitId req) addr quantity = (h', regs, None) ->
  len regs = quantity ->
  serve h req
  = Ret (h',
         [WriteResponse
            (Some {| unitId := unitId req;
                     functionCode := functionCode req;
                     payload := byte_of_Z (2 * quantity)
                                  :: uint16sToBytes regs |})],
         true).
Proof.
  intros Hfc Hp Ha Hq Hok Hlast Hcall Hlen.
  rewrite (serve_dispatched h req h'
             (Some {| unitId := unitId req;
                      functionCode := functionCode req;
                      payload := byte_of_Z (2 * quantity)
                                   :: uint16sToBytes regs |}) None);
    [reflexivity|].
  rewrite dispatch_read_registers by (now right).
  rewrite (caseReadRegisters_handler h req a1 a0 q1 q0 addr quantity)
    by assumption.
  rewrite Hfc.
  change (Byte.eqb FC_READ_INPUT_REGISTERS FC_READ_HOLDING_REGISTERS)
    with false.
  cbv iota. rewrite Hcall, Hlen, Z.eqb_refl. cbn [isNil negb andb].
  now rewrite (Z.mul_comm quantity 2).
Qed.

End ReadOnly.

(** ** What the worker writes, whatever the requests *)

Section Traces.
Context {codes : ExceptionCodes} {H : Type} {handler : RequestHandler H}.

Implicit Types (h : H) (req : pdu) (reqs : list pdu).

(** A response [r] to the request [req]: for the unit of the request, under
    its function code or that code with the error bit, with a payload of 1
    to 251 bytes. *)
Local Abbreviation answers req r :=
  (unitId r = unitId req
   /\ (functionCode r = functionCode req
       \/ functionCode r = errorFunctionCode (functionCode req))
   /\ 1 <= len (payload r) <= 251).

(** At the end of the switch there is an error and no response, or a
    response to the request and no error. *)
Local Abbreviation dispatch_ok req res err :=
  (match res with
   | Some r => err = None /\ answers req r
   | None => err <> None
   end).

Ltac run_step :=
  match goal with
  | |- Ret _ = Ret _ -> _ => intros [= <- <- <-]
  | |- PanicIndexOutOfRange = Ret _ -> _ => discriminate
  | |- (if ?b then _ else _) = _ -> _ => destruct b eqn:?
  | |- context [HandleCoils ?h ?u ?a ?q ?w ?args] =>
      destruct (HandleCoils h u a q w args) as [[? ?] ?]
  | |- context [HandleDiscreteInputs ?h ?u ?a ?q] =>
      destruct (HandleDiscreteInputs h u a q) as [[? ?] ?]
  | |- context [HandleHoldingRegisters ?h ?u ?a ?q ?w ?args] =>
      destruct (HandleHoldingRegisters h u a q w args) as [[? ?] ?]
  | |- context [HandleInputRegisters ?h ?u ?a ?q] =>
      destruct (HandleInputRegisters h u a q) as [[? ?] ?]
  | |- (match ?x with Some _ => _ | None => _ end) = _ -> _ =>
      destruct x eqn:?
  | |- context [if Byte.eqb ?a ?b then _ else _] => destruct (Byte.eqb a b)
  | |- context [decodeBools ?q ?t] => destruct (decodeBools q t); cbn [bind]
  | |- context [bytesToUint16s ?t] => destruct (bytesToUint16s t); cbn [bind]
  end.

(** Close a leaf of the switch: an error without a response, or an echo or
    exception response of a few bytes. *)
Ltac leaf :=
  cbn [payload unitId functionCode];
  first [ discriminate
        | split; [reflexivity|];
          split; [reflexivity|];
          split; [auto|];
          rewrite ?uint16ToBytes_of_bytes; unfold len; cbn [length app];
          lia ].

Lemma caseReadBits_result h req h' res err :
  caseReadBits h req = Ret (h', res, err) -> dispatch_ok req res err.
Proof.
  unfold caseReadBits.
  destruct (Z.eqb_spec (len (payload req)) 4) as [E|E]; cbn [negb];
    [|run_step; discriminate].
  apply payload_of_len_4 in E as (a & b & c & d & ->).
  read_fields. repeat run_step; try discriminate.
  all: cbn [payload unitId functionCode];
    split; [reflexivity|]; split; [reflexivity|]; split; [auto|].
  all: match goal with
       | Hq : (_ >? 2000) || _ = false,
         Hn : isNil None && negb (len ?l =? _) = false |- _ =>
           apply orb_false_iff in Hq as [Hq _];
           cbn [isNil andb] in Hn; apply negb_false_iff in Hn;
           pose proof (encodeBools_len l) as Hlen;
           pose proof (len_nonneg l);
           unfold len in *; cbn [length app];
           rewrite Nat2Z.inj_succ;
           Z.div_mod_to_equations; lia
       end.
Qed.

Lemma caseReadRegisters_result h req h' res err :
  caseReadRegisters h req = Ret (h', res, err) -> dispatch_ok req res err.
Proof.
  unfold caseReadRegisters.
  destruct (Z.eqb_spec (len (payload req)) 4) as [E|E]; cbn [negb];
    [|run_step; discriminate].
  apply payload_of_len_4 in E as (a & b & c & d & ->).
  read_fields. repeat run_step; try discriminate.
  all: cbn [payload unitId functionCode];
    split; [reflexivity|]; split; [reflexivity|]; split; [auto|].
  all: match goal with
       | Hq : (_ >? 0x7d) || _ = false,
         Hn : isNil None && negb (len ?l =? _) = false |- _ =>
           apply orb_false_iff in Hq as [Hq _];
           cbn [isNil andb] in Hn; apply negb_false_iff in Hn;
           pose proof (uint16sToBytes_length l) as Hlen;
           unfold len in *; cbn [length app];
           rewrite Nat2Z.inj_succ; lia
       end.
Qed.

Lemma caseWriteSingleCoil_result h req h' res err :
  caseWriteSingleCoil h req = Ret (h', res, err) -> dispatch_ok req res err.
Proof.
  unfold caseWriteSingleCoil.
  destruct (Z.eqb_spec (len (payload req)) 4) as [E|E]; cbn [negb];
    [|run_step; discriminate].
  apply payload_of_len_4 in E as (a & b & c & d & ->).
  read_fields. run_step; [run_step; discriminate|].
  read_fields. repeat run_step; leaf.
Qed.

Lemma caseWriteSingleRegister_result h req h' res err :
  caseWriteSingleRegister h req = Ret (h', res, err) ->
  dispatch_ok req res err.
Proof.
  unfold caseWriteSingleRegister.
  destruct (Z.eqb_spec (len (payload req)) 4) as [E|E]; cbn [negb];
    [|run_step; discriminate].
  apply payload_of_len_4 in E as (a & b & c & d & ->).
  read_fields. repeat run_step; leaf.
Qed.

Lemma caseWriteMultipleCoils_result h req h' res err :
  caseWriteMultipleCoils h req = Ret (h', res, err) ->
  dispatch_ok req res err.
Proof.
  unfold caseWriteMultipleCoils.
  destruct (Z.ltb_spec (len (payload req)) 6) as [E|E];
    [run_step; discriminate|].
  apply payload_of_len_ge_6 in E as (a & b & c & d & e & f & t & ->).
  read_fields. repeat run_step; leaf.
Qed.

Lemma caseWriteMultipleRegisters_result h req h' res err :
  caseWriteMultipleRegisters h req = Ret (h', res, err) ->
  dispatch_ok req res err.
Proof.
  unfold caseWriteMultipleRegisters.
  destruct (Z.ltb_spec (len (payload req)) 6) as [E|E];
    [run_step; discriminate|].
  apply payload_of_len_ge_6 in E as (a & b & c & d & e & f & t & ->).
  read_fields. repeat run_step; leaf.
Qed.

Lemma dispatch_result h req h' res err :
  dispatch h req = Ret (h', res, err) -> dispatch_ok req res err.
Proof.
  unfold dispatch.
  repeat match goal with
         | |- (if ?b then _ else _) = _ -> _ => destruct b
         end;
    first [ apply caseReadBits_result | apply caseReadRegisters_result
          | apply caseWriteSingleCoil_result
          | apply caseWriteSingleRegister_result
          | apply caseWriteMultipleCoils_result
          | apply caseWriteMultipleRegisters_result | idtac ].
  unfold caseDefault. intros [= <- <- <-]. cbn [payload unitId functionCode].
  split; [reflexivity|]. split; [reflexivity|]. split; [auto|].
  unfold len. cbn [length]. lia.
Qed.

(** One iteration either closes the link and stops the loop, or writes one
    response to the request and lets the loop go on. *)
Lemma serve_outcome h req h' evs continue :
  serve h req = Ret (h', evs, continue) ->
  (evs = [Close] /\ continue = false)
  \/ (exists r, evs = [WriteResponse (Some r)] /\ continue = true
                /\ answers req r).
Proof.
  unfold serve. destruct (dispatch h req) as [[[h1 res] err]|] eqn:Hd;
    [|discriminate].
  apply dispatch_result in Hd. cbn [bind].
  destruct res as [r|].
  - destruct Hd as [-> Hr]. cbn. intros [= <- <- <-]. right. eauto.
  - destruct err as [e|]; [|contradiction]. unfold finish. cbn [isNil andb].
    destruct (bool_decide (e = ErrProtocolError));
      intros [= <- <- <-]; [now left|right].
    eexists. split; [reflexivity|]. split; [reflexivity|].
    cbn [payload unitId functionCode]. split; [reflexivity|].
    split; [auto|]. unfold len. cbn [length]. lia.
Qed.

(** The whole run: the worker answers the requests one by one, in order,
    and after the last response it either has taken every request or
    closes the link. *)
Lemma handleTransport_trace h reqs :
  exists h' rs,
    (handleTransport h reqs
     = Ret (h', map (fun r => WriteResponse (Some r)) rs)
     /\ length rs = length reqs
     \/ handleTransport h reqs
        = Ret (h', map (fun r => WriteResponse (Some r)) rs ++ [Close])
        /\ (length rs < length reqs)%nat)
    /\ Forall2 (fun req r => answers req r) (take (length rs) reqs) rs.
Proof.
  revert h. induction reqs as [|req rest IH]; intros h.
  - exists h, []. split; [left; split; reflexivity|constructor].
  - cbn [handleTransport].
    destruct (serve_returns h req) as [[[h1 evs] continue] Hs].
    rewrite Hs. cbn [bind].
    destruct (serve_outcome h req h1 evs continue Hs)
      as [[-> ->]|(r & -> & -> & Hr)].
    + exists h1, []. split; [right; split; [reflexivity|cbn; lia]|].
      constructor.
    + destruct (IH h1) as (h' & rs & [[Hrun Hlen]|[Hrun Hlen]] & Hall);
        rewrite Hrun; cbn [bind]; exists h', (r :: rs).
      * split; [left; split; [reflexivity|cbn; lia]|].
        cbn [length take]. now constructor.
      * split; [right; split; [reflexivity|cbn; lia]|].
        cbn [length take]. now constructor.
Qed.

Lemma finish_closes req res err :
  (finish req res err).2 = false <-> err = Some ErrProtocolError.
Proof.
  unfold finish. destruct err as [e|]; cbn [isNil andb].
  - destruct (decide (e = ErrProtocolError)) as [->|Hne].
    + now rewrite bool_decide_eq_true_2.
    + rewrite bool_decide_eq_false_2 by exact Hne. cbn.
      split; [discriminate|congruence].
  - destruct res; cbn; split; discriminate.
Qed.

(** A run that does not close the link goes on with the requests that
    follow. *)
Lemma handleTransport_app h pre suf h1 (rs : list pdu) :
  handleTransport h pre
  = Ret (h1, map (fun r => WriteResponse (Some r)) rs) ->
  handleTransport h (pre ++ suf)
  = (do '(h2, evs) <- handleTransport h1 suf;
     Ret (h2, map (fun r => WriteResponse (Some r)) rs ++ evs)).
Proof.
  revert h rs. induction pre as [|req pre IH]; intros h rs.
  - cbn. intros [= <- Hrs]. destruct rs; [|discriminate Hrs]. cbn.
    destruct (handleTransport h suf) as [[h2 evs]|]; reflexivity.
  - cbn [handleTransport app].
    destruct (serve_returns h req) as [[[h0 evs0] continue] Hs].
    rewrite Hs. cbn [bind].
    destruct (serve_outcome h req h0 evs0 continue Hs)
      as [[-> ->]|(r & -> & -> & _)].
    + intros [= _ Hrs]. destruct rs; discriminate Hrs.
    + destruct (handleTransport h0 pre) as [[h' evs']|] eqn:Hpre;
        [|discriminate]. cbn [bind app].
      intros [= -> Hrs]. destruct rs as [|r0 rs]; [discriminate Hrs|].
      cbn [map] in Hrs. injection Hrs as -> ->.
      rewrite (IH h0 rs Hpre).
      destruct (handleTransport h1 suf) as [[h2 evs]|]; reflexivity.
Qed.

(** X12.  The worker closes the link at the first request whose dispatch
    ends in [ErrProtocolError], and only there.  Every run either answers
    all the requests, one response each, or answers the requests before
    some request, finds that the dispatch of that request (from the
    handler state reached so far) ends in [ErrProtocolError], closes the
    link and writes nothing more; and whenever the requests before a
    request have been answered and the dispatch of that request ends in
    [ErrProtocolError], the run ends with the link closed there, whatever
    follows. *)
Theorem worker_closes_at_first_protocol_error h reqs :
  ((exists h' rs,
      handleTransport h reqs
      = Ret (h', map (fun r => WriteResponse (Some r)) rs)
      /\ length rs = length reqs)
   \/ (exists pre req rest h1 rs h' res,
         reqs = pre ++ req :: rest
         /\ handleTransport h pre
            = Ret (h1, map (fun r => WriteResponse (Some r)) rs)
         /\ length rs = length pre
         /\ dispatch h1 req = Ret (h', res, Some ErrProtocolError)
         /\ handleTransport h reqs
            = Ret (h', map (fun r => WriteResponse (Some r)) rs ++ [Close])))
  /\ (forall pre req rest h1 rs h' res,
        reqs = pre ++ req :: rest ->
        handleTransport h pre
        = Ret (h1, map (fun r => WriteResponse (Some r)) rs) ->
        dispatch h1 req = Ret (h', res, Some ErrProtocolError) ->
        handleTransport h reqs
        = Ret (h', map (fun r => WriteResponse (Some r)) rs ++ [Close])).
Proof.
  split.
  - revert h. induction reqs as [|req rest IH]; intros h.
    + left. exists h, []. split; reflexivity.
    + destruct (dispatch_returns h req) as [[[h0 res] err] Hd].
      pose proof (serve_dispatched h req h0 res err Hd) as Hs.
      destruct ((finish req res err).2) eqn:Hc.
      * destruct (serve_outcome h req _ _ _ Hs)
          as [[_ Hf]|(r & Hevs & _ & _)]; [discriminate Hf|].
        rewrite Hevs in Hs.
        pose proof (handleTransport_continue h req rest _ _ Hs) as Hrun.
        destruct (IH h0) as [(h' & rs & Hrest & Hlen)
                            |(pre & req' & rest' & h1 & rs & h' & res'
                              & -> & Hpre & Hlen & Hpe & Hrest)].
        -- left. exists h', (r :: rs). rewrite Hrun, Hrest. cbn.
           split; [reflexivity|lia].
        -- right. exists (req :: pre), req', rest', h1, (r :: rs), h', res'.
           split; [reflexivity|].
           split; [rewrite (handleTransport_continue h req pre _ _ Hs), Hpre;
                   reflexivity|].
           split; [cbn; lia|]. split; [exact Hpe|].
           rewrite Hrun, Hrest. reflexivity.
      * apply finish_closes in Hc as ->.
        rewrite finish_protocol_error in Hs. cbn [fst snd] in Hs.
        right. exists [], req, rest, h, [], h0, res.
        repeat split; try reflexivity; try assumption.
        apply (handleTransport_return h req rest _ _ Hs).
  - intros pre req rest h1 rs h' res -> Hpre Hpe.
    rewrite (handleTransport_app h pre (req :: rest) h1 rs Hpre).
    apply serve_dispatched in Hpe. rewrite finish_protocol_error in Hpe.
    cbn [fst snd] in Hpe.
    rewrite (handleTransport_return h1 req rest _ _ Hpe). reflexivity.
Qed.

Lemma written_response (rs : list pdu) (tl : list event) (i : nat)
    (r : option pdu) :
  tl = [] \/ tl = [Close] ->
  (map (fun p => WriteResponse (Some p)) rs ++ tl) !! i
  = Some (WriteResponse r) ->
  exists p, r = Some p /\ rs !! i = Some p.
Proof.
  intros Htl Hi.
  destruct (decide (i < length rs)%nat) as [Hlt|Hge].
  - rewrite lookup_app_l in Hi by now rewrite length_map.
    rewrite list_lookup_fmap in Hi.
    destruct (rs !! i) as [p|]; [|discriminate].
    injection Hi as <-. now exists p.
  - rewrite lookup_app_r in Hi by (rewrite length_map; lia).
    destruct Htl as [-> | ->]; destruct (i - _)%nat; cbn in Hi;
      discriminate Hi.
Qed.

(** X13.  The [i]-th thing the worker writes is the response to the
    [i]-th request: it is a PDU (never [nil]) for the unit id of that
    request, under the function code of the request or that code with the
    error bit 0x80 set. *)
Theorem responses_answer_their_requests h reqs h' evs :
  handleTransport h reqs = Ret (h', evs) ->
  forall i r,
    evs !! i = Some (WriteResponse r) ->
    exists req p,
      reqs !! i = Some req /\ r = Some p
      /\ unitId p = unitId req
      /\ (functionCode p = functionCode req
          \/ functionCode p
             = byte_of_Z (Z.lor 0x80 (byte_to_Z (functionCode req)))).
Proof.
  intros Hrun i r Hi.
  destruct (handleTransport_trace h reqs) as (h1 & rs & Hshape & Hall).
  assert (Hp : exists p, r = Some p /\ rs !! i = Some p).
  { destruct Hshape as [[Heq _]|[Heq _]]; rewrite Hrun in Heq;
      injection Heq as _ ->.
    - apply (written_response rs [] i r); [now left|].
      now rewrite app_nil_r.
    - apply (written_response rs [Close] i r); [now right|assumption]. }
  destruct Hp as (p & -> & Hp).
  destruct (Forall2_lookup_r _ _ _ _ _ Hall Hp) as (req & Hreq & Hu & Hf & _).
  apply lookup_take_Some in Hreq as [Hreq _].
  now exists req, p.
Qed.

(** X14.  No response the worker writes exceeds the size of a Modbus PDU:
    every response has a payload of at least 1 and at most 251 bytes
    (function code and unit id aside), for every request and whatever the
    handler returns. *)
Theorem responses_fit_in_a_pdu h reqs h' evs :
  handleTransport h reqs = Ret (h', evs) ->
  forall r,
    In (WriteResponse r) evs ->
    exists p, r = Some p /\ 1 <= len (payload p) <= 251.
Proof.
  intros Hrun r Hin.
  apply list_elem_of_In, list_elem_of_lookup in Hin as [i Hi].
  destruct (handleTransport_trace h reqs) as (h1 & rs & Hshape & Hall).
  assert (Hp : exists p, r = Some p /\ rs !! i = Some p).
  { destruct Hshape as [[Heq _]|[Heq _]]; rewrite Hrun in Heq;
      injection Heq as _ ->.
    - apply (written_response rs [] i r); [now left|].
      now rewrite app_nil_r.
    - apply (written_response rs [Close] i r); [now right|assumption]. }
  destruct Hp as (p & -> & Hp).
  destruct (Forall2_lookup_r _ _ _ _ _ Hall Hp) as (req & _ & _ & _ & Hlen).
  now exists p.
Qed.

End Traces.

(** * Further properties of the server core *)

Lemma substring_all (s : string) : String.substring 0 (String.length s) s = s.
Proof.
  induction s as [|a s IH]; [reflexivity|]. cbn. now rewrite IH.
Qed.

(** A URL that starts with the scheme is the scheme followed by what
    [TrimPrefix] keeps. *)
Lemma trim_tcp_prefix (url : string) :
  String.prefix "tcp://" url = true ->
  url
  = String.append "tcp://"
      (String.substring 6 (String.length url - 6) url).
Proof.
  intros Hp.
  do 6 (destruct url as [|? url]; [discriminate Hp|];
        cbn [String.prefix] in Hp;
        match type of Hp with
        | (if ?d then _ else _) = true =>
            destruct d as [<-|]; [|discriminate Hp]
        end).
  cbn [String.length Nat.sub String.substring].
  rewrite Nat.sub_0_r, substring_all. reflexivity.
Qed.

Lemma indexOf_None (clients : list conn) (sock : conn) :
  sock ∉ clients -> indexOf clients sock = None.
Proof.
  induction clients as [|c clients IH]; intros Hnin; [reflexivity|].
  cbn [indexOf]. apply not_elem_of_cons in Hnin as [Hne Hnin].
  destruct (Nat.eqb_spec c sock) as [->|_]; [contradiction|].
  now rewrite IH.
Qed.

(** X15.  [NewServer] accepts exactly the URLs that start with [tcp://].
    The server it returns keeps the URL without that prefix, uses 120
    seconds and 10 clients where the configuration has 0, so that its
    client limit is never 0, and is neither started nor connected to any
    client; any other URL gives [ErrConfigurationError]. *)
Theorem NewServer_fills_in_defaults (c : ServerConfiguration) :
  (String.prefix "tcp://" (URL c) = true ->
   exists ms,
     NewServer c = (ms, None)
     /\ URL c = String.append "tcp://" (URL (conf ms))
     /\ Timeout (conf ms)
        = (if Timeout c =? 0 then 120 * 1000000000 else Timeout c)
     /\ MaxClients (conf ms)
        = (if (MaxClients c =? 0)%N then 10%N else MaxClients c)
     /\ (0 < MaxClients (conf ms))%N
     /\ started ms = false /\ tcpClients ms = []
     /\ transport ms = TCP_TRANSPORT)
  /\ (String.prefix "tcp://" (URL c) = false ->
      (NewServer c).2 = Some ErrConfigurationError).
Proof.
  unfold NewServer. split; intros Hp; rewrite Hp; [|reflexivity].
  eexists. split; [reflexivity|]. cbn.
  split; [now apply trim_tcp_prefix|].
  repeat split; auto.
  destruct (N.eqb_spec (MaxClients c) 0); lia.
Qed.

(** X16.  [Start] returns no error exactly when the server is started
    afterwards; when it returns an error (the listener cannot be bound, or
    the server has no TCP transport) the server is left as it was,
    unstarted.  In no case does [Start] touch the active-connection
    set. *)
Theorem Start_succeeds_or_changes_nothing
    (ms : server) (listenErr : option error) :
  ((Start ms listenErr).2 = None -> started (Start ms listenErr).1 = true)
  /\ ((Start ms listenErr).2 <> None ->
      (Start ms listenErr).1 = ms /\ started ms = false)
  /\ tcpClients (Start ms listenErr).1 = tcpClients ms.
Proof.
  unfold Start. destruct (started ms) eqn:Es; cbn.
  - repeat split; auto. congruence.
  - destruct (transport ms); cbn.
    + repeat split; auto. discriminate.
    + destruct listenErr; cbn; repeat split; auto; congruence.
Qed.

(** X17.  [Start] and [Stop] are idempotent: a second [Start] after one
    that succeeded, and a second [Stop] after any [Stop], return no error
    and leave the server exactly as it was, whatever the listener would
    have answered. *)
Theorem Start_and_Stop_are_idempotent
    (ms : server) (e1 e2 : option error) :
  ((Start ms e1).2 = None ->
   Start (Start ms e1).1 e2 = ((Start ms e1).1, None))
  /\ Stop (Stop ms e1).1 e2 = ((Stop ms e1).1, None).
Proof.
  split.
  - intros Hok.
    assert (Hs : started (Start ms e1).1 = true).
    { unfold Start in *. destruct (started ms) eqn:Es; [exact Es|].
      destruct (transport ms); [discriminate Hok|].
      destruct e1; [discriminate Hok|reflexivity]. }
    unfold Start at 1. now rewrite Hs.
  - assert (Hs : started (Stop ms e1).1 = false).
    { unfold Stop. destruct (started ms) eqn:Es; cbn [negb].
      - now destruct (transport ms).
      - exact Es. }
    unfold Stop at 1. now rewrite Hs.
Qed.

(** X18.  A server can be started again after [Stop], and the restart does
    not reset the active-connection set: the connections of the previous
    session stay in it, and count against [MaxClients], until their
    workers remove them. *)
Theorem restart_keeps_active_connections
    (c : ServerConfiguration) (ms : server) (closeErr : option error) :
  reachable c ms ->
  started ms = true ->
  Start (Stop ms closeErr).1 None
  = ({| conf := conf ms; started := true; listening := true;
        tcpClients := tcpClients ms; transport := TCP_TRANSPORT;
        closed := closed ms ∪ list_to_set (tcpClients ms);
        decided := decided ms; serving := serving ms;
        leaving := leaving ms |}, None).
Proof.
  intros Hreach Hstarted.
  destruct (reachable_invariant c ms Hreach) as (_ & _ & Htcp).
  specialize (Htcp Hstarted).
  unfold Stop. rewrite Hstarted, Htcp. cbn [negb fst].
  unfold Start. cbn. reflexivity.
Qed.

(** X19.  In every state a server built by [NewServer] goes through, the
    transport is TCP and the listener is open exactly when the server is
    started. *)
Theorem listening_exactly_when_started
    (c : ServerConfiguration) (ms : server) :
  reachable c ms ->
  transport ms = TCP_TRANSPORT /\ listening ms = started ms.
Proof.
  induction 1 as [ms Hnew|ms ms' _ (IHt & IHl) Hstep].
  - unfold NewServer in Hnew. destruct (String.prefix _ _); [|discriminate].
    now injection Hnew as <-.
  - destruct Hstep as [ms listenErr|ms closeErr|ms sock
                      |ms d1 sock accepted d2 _|ms w1 sock w2 _
                      |ms w1 sock w2 _].
    + unfold Start. destruct (started ms) eqn:Es; [cbn; rewrite Es; auto|].
      rewrite IHt. destruct listenErr; cbn; rewrite ?Es; auto.
    + unfold Stop. destruct (started ms) eqn:Es; cbn [negb];
        [|cbn; rewrite Es; auto].
      rewrite IHt. cbn. auto.
    + unfold admission. destruct (_ <? _)%N; cbn; auto.
    + destruct accepted; cbn; auto.
    + cbn. auto.
    + cbn. auto.
Qed.

(** X20.  The removal loop of a worker takes out exactly one entry: when
    the connection is in the slice, the slice afterwards holds the same
    connections less one occurrence of it (in another order: the last entry
    moves into the hole), so it is one shorter, and if the connections
    were distinct the removed one is gone; when the connection is not in
    the slice, the slice is left as it is. *)
Theorem removeClient_removes_one_entry (clients : list conn) (sock : conn) :
  (sock ∉ clients -> removeClient clients sock = clients)
  /\ (sock ∈ clients ->
      clients ≡ₚ sock :: removeClient clients sock
      /\ length (removeClient clients sock) = (length clients - 1)%nat
      /\ (NoDup clients ->
          (sock ∉ removeClient clients sock)
          /\ NoDup (removeClient clients sock))).
Proof.
  split.
  - intros Hnin. unfold removeClient. now rewrite indexOf_None.
  - intros Hin. pose proof (removeClient_Permutation clients sock Hin) as Hp.
    split; [exact Hp|]. split.
    + apply Permutation_length in Hp. cbn [length] in Hp. lia.
    + intros Hnd. rewrite Hp in Hnd. now apply NoDup_cons in Hnd.
Qed.

(** The connections an accept loop has decided to hand to a worker. *)
Local Abbreviation accepted ds := (map fst (List.filter snd ds)).

Lemma active_set_invariant (c : ServerConfiguration) (ms : server) :
  reachable c ms ->
  tcpClients ms ≡ₚ accepted (decided ms) ++ serving ms.
Proof.
  induction 1 as [ms Hnew|ms ms' _ IH Hstep].
  - unfold NewServer in Hnew. destruct (String.prefix _ _); [|discriminate].
    now injection Hnew as <-.
  - destruct Hstep as [ms listenErr|ms closeErr|ms sock
                      |ms d1 sock acc d2 Hd|ms w1 sock w2 Hw
                      |ms w1 sock w2 _].
    + unfold Start. destruct (started ms); [exact IH|].
      destruct (transport ms); [exact IH|]. now destruct listenErr.
    + unfold Stop. destruct (started ms); cbn [negb]; [|exact IH].
      now destruct (transport ms).
    + unfold admission. destruct (_ <? _)%N; cbn.
      * rewrite List.filter_app, map_app. cbn. rewrite IH.
        rewrite <- !app_assoc. apply Permutation_app_head.
        apply Permutation_app_comm.
      * rewrite List.filter_app, map_app. cbn. now rewrite app_nil_r.
    + rewrite Hd in IH. rewrite List.filter_app, map_app in IH.
      destruct acc; cbn in *.
      * rewrite List.filter_app, map_app, IH.
        rewrite <- !app_assoc. cbn. rewrite <- !Permutation_middle.
        now rewrite app_nil_r.
      * now rewrite List.filter_app, map_app.
    + cbn. rewrite Hw in IH.
      assert (Hin : sock ∈ tcpClients ms).
      { rewrite IH. apply elem_of_app. right. apply elem_of_app. right.
        apply list_elem_of_here. }
      apply removeClient_Permutation in Hin.
      rewrite Hin in IH. rewrite <- !Permutation_middle in IH.
      now apply Permutation_cons_inv in IH.
    + cbn. exact IH.
Qed.

(** X21.  The active-connection set is at every moment exactly the
    connections that have been let in and whose worker has not yet removed
    its entry: those an accept loop is about to hand to a worker, and
    those being served.  So a worker always finds its connection in the
    set when it removes it, and once no accept loop is between its check
    and the start of the worker and no worker is inside [handleTransport],
    the set is empty. *)
Theorem active_set_is_pending_and_served
    (c : ServerConfiguration) (ms : server) :
  reachable c ms ->
  tcpClients ms ≡ₚ map fst (List.filter snd (decided ms)) ++ serving ms
  /\ (forall sock, sock ∈ serving ms -> sock ∈ tcpClients ms)
  /\ (decided ms = [] -> serving ms = [] -> tcpClients ms = []).
Proof.
  intros Hreach. pose proof (active_set_invariant c ms Hreach) as Hinv.
  split; [exact Hinv|]. split.
  - intros sock Hin. rewrite Hinv. apply elem_of_app. now right.
  - intros Hd Hs. rewrite Hd, Hs in Hinv. now apply Permutation_nil_r in Hinv.
Qed.

(** X22.  A server whose construction failed cannot be started: [Start]
    returns [ErrConfigurationError] and the server stays unstarted,
    whatever the listener would have answered. *)
Theorem failed_NewServer_cannot_start
    (c : ServerConfiguration) (ms : server) (e : error)
    (listenErr : option error) :
  NewServer c = (ms, Some e) ->
  e = ErrConfigurationError
  /\ Start ms listenErr = (ms, Some ErrConfigurationError)
  /\ started ms = false.
Proof.
  unfold NewServer. destruct (String.prefix _ _); [discriminate|].
  intros [= <- <-]. repeat split.
Qed.

(** ** The further properties on concrete inputs *)

Lemma unknown_function_code_is_illegal_function_witness :
  @handleTransport modbusCodes nat (scriptedHandler [] [] None) 0%nat
    [ {| unitId := x07; functionCode := x2b; payload := [x0e; x01; x00] |} ]
  = Ret (0%nat,
         [WriteResponse
            (Some {| unitId := x07; functionCode := xab;
                     payload := [x01] |})]).
Proof.
  apply (@unknown_function_code_is_illegal_function modbusCodes nat
           (scriptedHandler [] [] None) 0%nat
           {| unitId := x07; functionCode := x2b;
              payload := [x0e; x01; x00] |} []).
  cbn [In functionCode]. intros Hin.
  repeat (destruct Hin as [Hin|Hin]; [discriminate Hin|]). exact Hin.
Defined.

Lemma wrong_payload_length_closes_witness :
  @handleTransport modbusCodes nat (scriptedHandler [] [] None) 0%nat
    [ {| unitId := x01; functionCode := FC_WRITE_SINGLE_REGISTER;
         payload := [x00; x01; x02] |};
      readOneCoil ]
  = Ret (0%nat, [Close]).
Proof.
  apply (@wrong_payload_length_closes modbusCodes nat
           (scriptedHandler [] [] None) 0%nat).
  left. split; [cbn; tauto|discriminate].
Defined.

Lemma quantity_out_of_range_closes_witness :
  @handleTransport modbusCodes nat (scriptedHandler [] [] None) 0%nat
    [ {| unitId := x01; functionCode := FC_READ_HOLDING_REGISTERS;
         payload := [x00; x00; x00; x7e] |};
      readOneCoil ]
  = Ret (0%nat, [Close]).
Proof.
  apply (@quantity_out_of_range_closes modbusCodes nat
           (scriptedHandler [] [] None) 0%nat _ _ x00 x00 x00 x7e [] 126);
    try reflexivity.
  right; left. split; [now left|]. split; [reflexivity|]. right. lia.
Defined.

Lemma byte_count_mismatch_closes_witness :
  @handleTransport modbusCodes nat (scriptedHandler [] [] None) 0%nat
    [ {| unitId := x01; functionCode := FC_WRITE_MULTIPLE_REGISTERS;
         payload := [x00; x10; x00; x02; x04; x00; x01] |};
      readOneCoil ]
  = Ret (0%nat, [Close]).
Proof.
  apply (@byte_count_mismatch_closes modbusCodes nat
           (scriptedHandler [] [] None) 0%nat _ _
           x00 x10 x00 x02 x04 [x00; x01] 16 2 4);
    try reflexivity; try lia.
  - unfold len. cbn [length]. lia.
  - right. split; [reflexivity|]. split; lia.
  - right. discriminate.
Defined.

Lemma write_multiple_coils_response_witness :
  @serve modbusCodes nat (scriptedHandler [] [] None) 0%nat
    {| unitId := x01; functionCode := FC_WRITE_MULTIPLE_COILS;
       payload := [x00; x13; x00; x0a; x02; x4d; x03] |}
  = Ret (1%nat,
         [WriteResponse
            (Some {| unitId := x01; functionCode := FC_WRITE_MULTIPLE_COILS;
                     payload := [x00; x13; x00; x0a] |})],
         true).
Proof.
  apply (@write_multiple_coils_response modbusCodes nat
           (scriptedHandler [] [] None) 0%nat
           {| unitId := x01; functionCode := FC_WRITE_MULTIPLE_COILS;
              payload := [x00; x13; x00; x0a; x02; x4d; x03] |}
           x00 x13 x00 x0a x02 [x4d; x03] 19 10
           [true; false; true; true; false; false; true; false; true; true]
           1%nat []);
    try reflexivity; lia.
Defined.

Lemma write_multiple_registers_response_witness :
  @serve modbusCodes nat (scriptedHandler [] [] None) 0%nat
    {| unitId := x01; functionCode := FC_WRITE_MULTIPLE_REGISTERS;
       payload := [x00; x01; x00; x02; x04; x00; x0a; x01; x02] |}
  = Ret (1%nat,
         [WriteResponse
            (Some {| unitId := x01;
                     functionCode := FC_WRITE_MULTIPLE_REGISTERS;
                     payload := [x00; x01; x00; x02] |})],
         true).
Proof.
  apply (@write_multiple_registers_response modbusCodes nat
           (scriptedHandler [] [] None) 0%nat
           {| unitId := x01; functionCode := FC_WRITE_MULTIPLE_REGISTERS;
              payload := [x00; x01; x00; x02; x04; x00; x0a; x01; x02] |}
           x00 x01 x00 x02 x04 [x00; x0a; x01; x02] 1 2 [10; 258]
           1%nat []);
    try reflexivity; lia.
Defined.

Lemma write_single_coil_echoes_request_witness :
  @serve modbusCodes nat (scriptedHandler [] [] None) 0%nat
    {| unitId := x01; functionCode := FC_WRITE_SINGLE_COIL;
       payload := [x00; xac; xff; x00] |}
  = Ret (1%nat,
         [WriteResponse
            (Some {| unitId := x01; functionCode := FC_WRITE_SINGLE_COIL;
                     payload := [x00; xac; xff; x00] |})],
         true).
Proof.
  apply (@write_single_coil_echoes_request modbusCodes nat
           (scriptedHandler [] [] None) 0%nat
           {| unitId := x01; functionCode := FC_WRITE_SINGLE_COIL;
              payload := [x00; xac; xff; x00] |}
           x00 xac xff 172 1%nat []);
    try reflexivity.
  now right.
Defined.

Lemma write_single_register_echoes_request_witness :
  @serve modbusCodes nat (scriptedHandler [] [] None) 0%nat
    {| unitId := x01; functionCode := FC_WRITE_SINGLE_REGISTER;
       payload := [x00; x01; x00; x03] |}
  = Ret (1%nat,
         [WriteResponse
            (Some {| unitId := x01; functionCode := FC_WRITE_SINGLE_REGISTER;
                     payload := [x00; x01; x00; x03] |})],
         true).
Proof.
  apply (@write_single_register_echoes_request modbusCodes nat
           (scriptedHandler [] [] None) 0%nat
           {| unitId := x01; functionCode := FC_WRITE_SINGLE_REGISTER;
              payload := [x00; x01; x00; x03] |}
           x00 x01 x00 x03 1 3 1%nat []);
    reflexivity.
Defined.

Lemma failed_single_write_is_reported_witness :
  @handleTransport modbusCodes nat
    (scriptedHandler [] [] (Some ErrIllegalDataAddress)) 0%nat
    [ {| unitId := x01; functionCode := FC_WRITE_SINGLE_REGISTER;
         payload := [x00; x01; x00; x03] |} ]
  = Ret (1%nat,
         [WriteResponse
            (Some {| unitId := x01; functionCode := x86;
                     payload := [x02] |})]).
Proof.
  apply (@failed_single_write_is_reported modbusCodes nat
           (scriptedHandler [] [] (Some ErrIllegalDataAddress)) 0%nat
           {| unitId := x01; functionCode := FC_WRITE_SINGLE_REGISTER;
              payload := [x00; x01; x00; x03] |}
           [] x00 x01 x00 x03 1 1%nat [] ErrIllegalDataAddress);
    try reflexivity; try discriminate.
  right. split; [reflexivity|]. exists 3, []. split; reflexivity.
Defined.

Lemma read_discrete_inputs_response_witness :
  @serve modbusCodes nat (scriptedHandler [true; true; false] [] None) 0%nat
    {| unitId := x01; functionCode := FC_READ_DISCRETE_INPUTS;
       payload := [x00; xc4; x00; x03] |}
  = Ret (1%nat,
         [WriteResponse
            (Some {| unitId := x01; functionCode := FC_READ_DISCRETE_INPUTS;
                     payload := [x01; x03] |})],
         true).
Proof.
  apply (@read_discrete_inputs_response modbusCodes nat
           (scriptedHandler [true; true; false] [] None) 0%nat
           {| unitId := x01; functionCode := FC_READ_DISCRETE_INPUTS;
              payload := [x00; xc4; x00; x03] |}
           x00 xc4 x00 x03 196 3 1%nat [true; true; false]);
    try reflexivity; lia.
Defined.

Lemma read_input_registers_response_witness :
  @serve modbusCodes nat (scriptedHandler [] [10] None) 0%nat
    {| unitId := x01; functionCode := FC_READ_INPUT_REGISTERS;
       payload := [x00; x08; x00; x01] |}
  = Ret (1%nat,
         [WriteResponse
            (Some {| unitId := x01; functionCode := FC_READ_INPUT_REGISTERS;
                     payload := [x02; x00; x0a] |})],
         true).
Proof.
  apply (@read_input_registers_response modbusCodes nat
           (scriptedHandler [] [10] None) 0%nat
           {| unitId := x01; functionCode := FC_READ_INPUT_REGISTERS;
              payload := [x00; x08; x00; x01] |}
           x00 x08 x00 x01 8 1 1%nat [10]);
    try reflexivity; lia.
Defined.

Lemma responses_answer_their_requests_witness :
  exists req p,
    [readOneCoil; readThreeRegisters] !! 1%nat = Some req
    /\ Some {| unitId := x01; functionCode := FC_READ_HOLDING_REGISTERS;
               payload := [x06; x00; x01; x00; x02; x00; x03] |}
       = Some p
    /\ unitId p = unitId req
    /\ (functionCode p = functionCode req
        \/ functionCode p
           = byte_of_Z (Z.lor 0x80 (byte_to_Z (functionCode req)))).
Proof.
  apply (@responses_answer_their_requests modbusCodes nat
           (scriptedHandler [true] [1; 2; 3] None) 0%nat
           [readOneCoil; readThreeRegisters] 2%nat
           [WriteResponse
              (Some {| unitId := x01; functionCode := FC_READ_COILS;
                       payload := [x01; x01] |});
            WriteResponse
              (Some {| unitId := x01;
                       functionCode := FC_READ_HOLDING_REGISTERS;
                       payload := [x06; x00; x01; x00; x02; x00; x03] |})]);
    reflexivity.
Defined.

Lemma responses_fit_in_a_pdu_witness :
  exists p,
    Some {| unitId := x01; functionCode := FC_READ_COILS;
            payload := [x01; x01] |} = Some p
    /\ 1 <= len (payload p) <= 251.
Proof.
  apply (@responses_fit_in_a_pdu modbusCodes nat
           (scriptedHandler [true] [1; 2; 3] None) 0%nat
           [readOneCoil; readThreeRegisters] 2%nat
           [WriteResponse
              (Some {| unitId := x01; functionCode := FC_READ_COILS;
                       payload := [x01; x01] |});
            WriteResponse
              (Some {| unitId := x01;
                       functionCode := FC_READ_HOLDING_REGISTERS;
                       payload := [x06; x00; x01; x00; x02; x00; x03] |})]);
    [reflexivity|now left].
Defined.

Lemma NewServer_fills_in_defaults_witness :
  exists ms,
    NewServer {| URL := "tcp://[::]:502"; Timeout := 0; MaxClients := 0 |}
    = (ms, None)
    /\ "tcp://[::]:502" = String.append "tcp://" (URL (conf ms))
    /\ Timeout (conf ms) = 120 * 1000000000
    /\ MaxClients (conf ms) = 10%N
    /\ (0 < MaxClients (conf ms))%N
    /\ started ms = false /\ tcpClients ms = []
    /\ transport ms = TCP_TRANSPORT.
Proof.
  apply (proj1 (NewServer_fills_in_defaults
                  {| URL := "tcp://[::]:502"; Timeout := 0;
                     MaxClients := 0 |})).
  reflexivity.
Defined.

Lemma Start_succeeds_or_changes_nothing_witness :
  started (Start (NewServer exampleConf).1 None).1 = true
  /\ (Start (NewServer exampleConf).1 (Some (ErrOther "address in use"))).1
     = (NewServer exampleConf).1.
Proof.
  split.
  - apply (proj1 (Start_succeeds_or_changes_nothing
                    (NewServer exampleConf).1 None)).
    reflexivity.
  - apply (proj1 (proj2 (Start_succeeds_or_changes_nothing
                           (NewServer exampleConf).1
                           (Some (ErrOther "address in use"))))).
    discriminate.
Defined.

Lemma Start_and_Stop_are_idempotent_witness :
  Start listeningServer (Some (ErrOther "address in use"))
  = (listeningServer, None)
  /\ Stop (Stop serverWithClient None).1 (Some (ErrOther "closed"))
     = ((Stop serverWithClient None).1, None).
Proof.
  split.
  - apply (proj1 (Start_and_Stop_are_idempotent
                    (NewServer exampleConf).1 None
                    (Some (ErrOther "address in use")))).
    reflexivity.
  - apply (proj2 (Start_and_Stop_are_idempotent
                    serverWithClient None (Some (ErrOther "closed")))).
Defined.

Lemma restart_keeps_active_connections_witness :
  tcpClients (Start (Stop serverWithClient None).1 None).1 = [7%nat]
  /\ started (Start (Stop serverWithClient None).1 None).1 = true.
Proof.
  rewrite (restart_keeps_active_connections exampleConf serverWithClient None
             serverWithClient_reachable eq_refl).
  split; reflexivity.
Defined.

Lemma listening_exactly_when_started_witness :
  transport serverWithClient = TCP_TRANSPORT
  /\ listening serverWithClient = started serverWithClient.
Proof.
  exact (listening_exactly_when_started exampleConf serverWithClient
           serverWithClient_reachable).
Defined.

Lemma removeClient_removes_one_entry_witness :
  removeClient [1; 2; 3; 4]%nat 9%nat = [1; 2; 3; 4]%nat
  /\ [1; 2; 3; 4]%nat ≡ₚ 2%nat :: removeClient [1; 2; 3; 4]%nat 2%nat
  /\ removeClient [1; 2; 3; 4]%nat 2%nat = [1; 4; 3]%nat.
Proof.
  split.
  - apply (proj1 (removeClient_removes_one_entry [1; 2; 3; 4]%nat 9%nat)).
    intros Hin. repeat (apply elem_of_cons in Hin as [Hin|Hin];
                        [discriminate Hin|]).
    now apply elem_of_nil in Hin.
  - split; [|reflexivity].
    apply (proj2 (removeClient_removes_one_entry [1; 2; 3; 4]%nat 2%nat)).
    apply list_elem_of_further, list_elem_of_here.
Defined.

Lemma active_set_is_pending_and_served_witness :
  tcpClients serverWithClient
  ≡ₚ map fst (List.filter snd (decided serverWithClient))
     ++ serving serverWithClient.
Proof.
  apply (active_set_is_pending_and_served exampleConf serverWithClient).
  exact serverWithClient_reachable.
Defined.

Lemma failed_NewServer_cannot_start_witness :
  Start (NewServer {| URL := "rtu:///dev/ttyUSB0"; Timeout := 0;
                      MaxClients := 0 |}).1 None
  = ((NewServer {| URL := "rtu:///dev/ttyUSB0"; Timeout := 0;
                   MaxClients := 0 |}).1,
     Some ErrConfigurationError).
Proof.
  apply (failed_NewServer_cannot_start
           {| URL := "rtu:///dev/ttyUSB0"; Timeout := 0; MaxClients := 0 |}
           _ ErrConfigurationError None).
  reflexivity.
Defined.

Lemma worker_closes_at_first_protocol_error_witness :
  @handleTransport modbusCodes nat (scriptedHandler [true] [] None) 0%nat
    [ readOneCoil;
      {| unitId := x01; functionCode := FC_WRITE_SINGLE_COIL;
         payload := [x00; x05; x01; x00] |};
      readOneCoil ]
  = Ret (1%nat,
         [WriteResponse
            (Some {| unitId := x01; functionCode := FC_READ_COILS;
                     payload := [x01; x01] |});
          Close]).
Proof.
  apply (proj2 (@worker_closes_at_first_protocol_error modbusCodes nat
                  (scriptedHandler [true] [] None) 0%nat
                  [ readOneCoil;
                    {| unitId := x01; functionCode := FC_WRITE_SINGLE_COIL;
                       payload := [x00; x05; x01; x00] |};
                    readOneCoil ])
           [readOneCoil]
           {| unitId := x01; functionCode := FC_WRITE_SINGLE_COIL;
              payload := [x00; x05; x01; x00] |}
           [readOneCoil] 1%nat
           [ {| unitId := x01; functionCode := FC_READ_COILS;
                payload := [x01; x01] |} ]
           1%nat None);
    reflexivity.
Defined.
